(** * Incremental PDF token index ([Dile_Scanner_OCR.py])

    A shallow embedding of the incremental indexer: token extraction per
    document, set-union merge of partial token maps, the JSON checkpoint
    (word map and scan cache), the add / delete / modified passes and the
    run [build_word_map_with_cache].

    Modelling conventions.
    - A Python [dict] is a [gmap], a Python [set] a [gset]: the order in
      which a dict or a set is iterated is not part of the model, so a
      persisted file is its JSON value, not its byte sequence.
    - A call that can raise returns [result]; the two checkpoint files are
      an explicit [Disk] threaded through the [IO] monad.
    - The modification time returned by [os.path.getmtime] is only stored
      and compared for equality; it is a [Z] here.
    - Text extraction, OCR and the tokenising regular expression are
      outside the program: a page is given by the tokens they produce, or
      by the fact that they raise. *)

From stdpp Require Import gmap strings list fin_maps fin_sets sorting.
From Stdlib Require Import ZArith Ascii String.

Local Open Scope Z_scope.

(** ** Data *)

(** A location is a pair (filename, page); tokens and file names are
    strings, pages Python integers. *)
Abbreviation Location := (string * Z)%type (only parsing).

(** [defaultdict(set)]: token -> set of (filename, page). *)
Abbreviation TokenMap := (gmap string (gset (string * Z))) (only parsing).

(** A cache entry is the dict [{"modified": mtime}]. *)
Record CacheEntry := { modified : Z }.

Global Instance CacheEntry_eq_dec : EqDecision CacheEntry.
Proof. solve_decision. Defined.

Abbreviation Cache := (gmap string CacheEntry) (only parsing).

(** The JSON value written to [word_map.json]:
    token -> { pdf -> list of pages }. *)
Abbreviation IndexJSON := (gmap string (gmap string (list Z))) (only parsing).

Definition CACHE_FILE : string := "scan_cache.json".
Definition OUTPUT_JSON : string := "word_map.json".

(** ** Exceptions and the two monads *)

Inductive exn :=
  | KeyError (key : string)
  | FileNotFoundError (path : string)
  | PermissionError (path : string)
  | OSError (path : string)
  | JSONDecodeError (path : string).

Global Instance exn_eq_dec : EqDecision exn.
Proof. solve_decision. Defined.

Inductive result (A : Type) :=
  | Raise (e : exn)
  | Ok (a : A).
Arguments Raise {A} e.
Arguments Ok {A} a.

Global Instance result_ret : MRet result := λ A a, Ok a.
Global Instance result_bind : MBind result := λ A B f m,
  match m with
  | Raise e => Raise e
  | Ok a => f a
  end.

(** A checkpoint file: missing, unreadable as JSON (also a file that a
    failed write left truncated or partial), or holding a value. *)
Inductive file (A : Type) :=
  | Absent
  | Corrupt
  | Content (a : A).
Arguments Absent {A}.
Arguments Corrupt {A}.
Arguments Content {A} a.

Record Disk := {
  word_map_json : file (IndexJSON);
  scan_cache_json : file (Cache)
}.

Definition IO (A : Type) : Type := Disk → Disk * result A.

Global Instance io_ret : MRet IO := λ A a d, (d, Ok a).
Global Instance io_bind : MBind IO := λ A B f m d,
  match m d with
  | (d', Raise e) => (d', Raise e)
  | (d', Ok a) => f a d'
  end.

(** A computation that raises or returns without touching the disk. *)
Definition lift {A} (r : result A) : IO A := λ d, (d, r).

(** ** The folder being indexed *)

(** A page as the extractor sees it.  [text_tokens]: the tokens found in
    [page.get_text().lower()], [None] when [load_page] or [get_text] raise.
    [images]: what [convert_from_path] returns for this page ([None] when it
    raises); each image is given by the tokens found in
    [pytesseract.image_to_string] of it, [None] when that raises. *)
Record PageData := {
  text_tokens : option (list string);
  images : option (list (option (list string)))
}.

Record World := {
  (** [os.listdir(folder)]; [None]: it raises. *)
  listdir : option (list string);
  (** [os.path.getmtime(os.path.join(folder, pdf))]; [None]: it raises. *)
  mtime : string → option Z;
  (** [fitz.open(pdf_path)]: the pages; [None]: it raises. *)
  fitz_open : string → option (list PageData);
  (** The order in which [as_completed] yields the futures. *)
  as_completed : list TokenMap →
                 list TokenMap;
  (** Writing [word_map.json] (lines 78-79) and [scan_cache.json] (lines
      88-89): whether [open(..., "w")] and [json.dump] both succeed. *)
  output_writable : bool;
  cache_writable : bool;
  (** When the write fails: whether it fails in [json.dump], after
      [open(..., "w")] has truncated the file, and not in [open]. *)
  output_truncated : bool;
  cache_truncated : bool
}.

Definition os_listdir (w : World) : result (list string) :=
  match listdir w with
  | Some names => Ok names
  | None => Raise (FileNotFoundError "folder")
  end.

Definition getmtime (w : World) (pdf : string) : result Z :=
  match mtime w pdf with
  | Some t => Ok t
  | None => Raise (FileNotFoundError pdf)
  end.

(** ** [f.lower().endswith(".pdf")] *)

Definition lower_ascii (c : ascii) : ascii :=
  let n := nat_of_ascii c in
  if (Nat.leb 65 n && Nat.leb n 90)%bool then ascii_of_nat (n + 32) else c.

Fixpoint lower (s : string) : string :=
  match s with
  | EmptyString => EmptyString
  | String c s' => String (lower_ascii c) (lower s')
  end.

Definition endswith (s suffix : string) : bool :=
  let n := String.length s in
  let k := String.length suffix in
  (Nat.leb k n && String.eqb (substring (n - k) k s) suffix)%bool.

Definition is_pdf (f : string) : bool := endswith (lower f) ".pdf".

(** ** Token maps *)

(** [merged[token].update(locations)] on a [defaultdict(set)]. *)
Definition update_locations (token : string) (locations : gset Location)
    (merged : TokenMap) : TokenMap :=
  <[token := default ∅ (merged !! token) ∪ locations]> merged.

(** The inner loop of [merge_token_maps], also lines 100-101 of
    [pdf_check_add]: [for token, locs in new_data.items():
    word_map[token].update(locs)]. *)
Definition update_all (new_data word_map : TokenMap)
    : TokenMap :=
  map_fold update_locations word_map new_data.

Definition merge_token_maps (all_maps : list TokenMap)
    : TokenMap :=
  foldl (λ merged token_map, update_all token_map merged) ∅ all_maps.

(** ** [extract_tokens_from_pdf] *)

(** The tokens of one page: the text layer, or the OCR of the first image
    when the text layer has no token.  [None]: an exception was raised. *)
Definition page_tokens (p : PageData) : option (list string) :=
  match text_tokens p with
  | None => None
  | Some [] =>
      match images p with
      | None => None
      | Some [] => Some []
      | Some (image :: _) => image
      end
  | Some tokens => Some tokens
  end.

(** The [for page_number in range(len(doc))] loop; an exception leaves the
    loop with the [token_map] built so far. *)
Fixpoint extract_pages (filename : string) (page_number : Z)
    (pages : list PageData) (token_map : TokenMap)
    : TokenMap :=
  match pages with
  | [] => token_map
  | p :: rest =>
      match page_tokens p with
      | None => token_map
      | Some tokens =>
          extract_pages filename (page_number + 1) rest
            (foldl (λ tm token,
                      update_locations token {[ (filename, page_number + 1) ]} tm)
                   token_map tokens)
      end
  end.

(** [pdf] is a name returned by [os.listdir], so
    [os.path.basename(os.path.join(folder, pdf))] is [pdf]. *)
Definition extract_tokens_from_pdf (w : World) (pdf : string)
    : TokenMap :=
  match fitz_open w pdf with
  | None => ∅
  | Some doc => extract_pages pdf 0 doc ∅
  end.

(** ** The checkpoint files *)

Definition from_json (data : IndexJSON)
    : TokenMap :=
  map_fold (λ token file_pages word_map,
    map_fold (λ file pages word_map,
      foldl (λ word_map page, update_locations token {[ (file, page) ]} word_map)
            word_map pages)
      word_map file_pages)
    ∅ data.

Definition load_existing_word_map_json : IO TokenMap :=
  λ d, (d, match word_map_json d with
           | Absent => Ok ∅
           | Corrupt => Raise (JSONDecodeError OUTPUT_JSON)
           | Content data => Ok (from_json data)
           end).

(** [structured_map[token][file].add(page)]. *)
Definition add_page (token file : string) (page : Z)
    (structured_map : gmap string (gmap string (gset Z)))
    : gmap string (gmap string (gset Z)) :=
  let pdf_map := default ∅ (structured_map !! token) in
  <[token := <[file := default ∅ (pdf_map !! file) ∪ {[ page ]}]> pdf_map]>
    structured_map.

Definition structured (word_map : TokenMap)
    : gmap string (gmap string (gset Z)) :=
  map_fold (λ token locations structured_map,
    set_fold (λ '(file, page) structured_map,
                add_page token file page structured_map)
             structured_map locations)
    ∅ word_map.

(** [sorted(pages)] for a set of integers. *)
Definition sorted (pages : gset Z) : list Z := merge_sort Z.le (elements pages).

Definition to_json (word_map : TokenMap)
    : IndexJSON :=
  (λ pdf_map : gmap string (gset Z), sorted <$> pdf_map) <$> structured word_map.

(** Lines 78-79 write the value.  [open(OUTPUT_JSON, "w")] truncates the
    file before [json.dump] writes to it: when [open] fails the disk is as
    it was; when [json.dump] fails the file is left truncated or partial,
    which is not a JSON value. *)
Definition save_word_map_json (w : World)
    (word_map : TokenMap) : IO unit :=
  λ d, if output_writable w
       then ({| word_map_json := Content (to_json word_map);
                scan_cache_json := scan_cache_json d |}, Ok ())
       else if output_truncated w
       then ({| word_map_json := Corrupt;
                scan_cache_json := scan_cache_json d |},
             Raise (OSError OUTPUT_JSON))
       else (d, Raise (PermissionError OUTPUT_JSON)).

Definition load_cache : IO Cache :=
  λ d, (d, match scan_cache_json d with
           | Absent => Ok ∅
           | Corrupt => Raise (JSONDecodeError CACHE_FILE)
           | Content cache => Ok cache
           end).

(** Lines 88-89, with the same two ways to fail. *)
Definition save_cache (w : World) (cache : Cache) : IO unit :=
  λ d, if cache_writable w
       then ({| word_map_json := word_map_json d;
                scan_cache_json := Content cache |}, Ok ())
       else if cache_truncated w
       then ({| word_map_json := word_map_json d;
                scan_cache_json := Corrupt |},
             Raise (OSError CACHE_FILE))
       else (d, Raise (PermissionError CACHE_FILE)).

(** [os.path.exists(OUTPUT_JSON)]. *)
Definition output_exists : IO bool :=
  λ d, (d, Ok (match word_map_json d with Absent => false | _ => true end)).

(** ** The add and delete passes *)

(** [for pdf in pdfs: cache[pdf] = {"modified": os.path.getmtime(path)}]. *)
Fixpoint record_mtimes (w : World) (pdfs : list string)
    (cache : Cache) : result (Cache) :=
  match pdfs with
  | [] => Ok cache
  | pdf :: rest =>
      t ← getmtime w pdf;
      record_mtimes w rest (<[pdf := {| modified := t |}]> cache)
  end.

Definition pdf_check_add (w : World) (new_pdfs : gset string)
    (word_map : TokenMap) (cache : Cache)
    : result (TokenMap * Cache) :=
  if decide (new_pdfs = ∅) then Ok (word_map, cache)
  else
    let futures := extract_tokens_from_pdf w <$> elements new_pdfs in
    let token_maps := as_completed w futures in
    let new_data := merge_token_maps token_maps in
    let word_map := update_all new_data word_map in
    cache ← record_mtimes w (elements new_pdfs) cache;
    Ok (word_map, cache).

(** One step of [for token in list(word_map.keys())]. *)
Definition purge_token (deleted_pdfs : gset string) (token : string)
    (word_map : TokenMap) : TokenMap :=
  let updated_locations :=
    filter (λ loc : string * Z, loc.1 ∉ deleted_pdfs)
           (default ∅ (word_map !! token)) in
  if decide (updated_locations = ∅) then delete token word_map
  else <[token := updated_locations]> word_map.

(** [for pdf in deleted_pdfs: del cache[pdf]]. *)
Fixpoint del_all (pdfs : list string) (cache : Cache)
    : result (Cache) :=
  match pdfs with
  | [] => Ok cache
  | pdf :: rest =>
      match cache !! pdf with
      | None => Raise (KeyError pdf)
      | Some _ => del_all rest (delete pdf cache)
      end
  end.

Definition pdf_check_deleted (deleted_pdfs : gset string)
    (word_map : TokenMap) (cache : Cache)
    : result (TokenMap * Cache) :=
  if decide (deleted_pdfs = ∅) then Ok (word_map, cache)
  else
    let word_map :=
      map_fold (λ token _ wm, purge_token deleted_pdfs token wm)
               word_map word_map in
    cache ← del_all (elements deleted_pdfs) cache;
    Ok (word_map, cache).

(** ** The run *)

(** Lines 148-153: the second scan over the time stamps. *)
Fixpoint scan_modified (w : World) (cache : Cache)
    (pdfs : list string) (modified_pdfs : gset string) : result (gset string) :=
  match pdfs with
  | [] => Ok modified_pdfs
  | pdf :: rest =>
      mod_time ← getmtime w pdf;
      scan_modified w cache rest
        (if decide (modified <$> cache !! pdf = Some mod_time)
         then modified_pdfs else modified_pdfs ∪ {[ pdf ]})
  end.

(** Lines 128-138: no [word_map.json], full index. *)
Definition full_index (w : World) (all_pdfs : list string)
    (cache : Cache)
    : result (TokenMap * Cache) :=
  let futures := extract_tokens_from_pdf w <$> all_pdfs in
  let token_maps := as_completed w futures in
  let word_map := merge_token_maps token_maps in
  cache ← record_mtimes w all_pdfs cache;
  Ok (word_map, cache).

(** Lines 141-157: the incremental update of a loaded word map. *)
Definition incremental (w : World) (all_pdfs : list string)
    (word_map : TokenMap) (cache : Cache)
    : result (TokenMap * Cache) :=
  let all_pdfs_set : gset string := list_to_set all_pdfs in
  let cached_pdfs_set : gset string := dom cache in
  let m := Z.of_nat (size all_pdfs_set) - Z.of_nat (size cached_pdfs_set) in
  '(word_map, cache) ←
    (if decide (m > 0) then
       pdf_check_add w (all_pdfs_set ∖ cached_pdfs_set) word_map cache
     else if decide (m < 0) then
       pdf_check_deleted (cached_pdfs_set ∖ all_pdfs_set) word_map cache
     else Ok (word_map, cache));
  modified_pdfs ← scan_modified w cache all_pdfs ∅;
  if decide (modified_pdfs = ∅) then Ok (word_map, cache)
  else
    '(word_map, cache) ← pdf_check_deleted modified_pdfs word_map cache;
    pdf_check_add w modified_pdfs word_map cache.

Definition build_word_map_with_cache (w : World) : IO bool :=
  names ← lift (os_listdir w);
  let all_pdfs := filter (λ f, is_pdf f = true) names in
  cache ← load_cache;
  found ← output_exists;
  '(word_map, cache) ←
     (if negb found then lift (full_index w all_pdfs cache)
      else word_map ← load_existing_word_map_json;
           lift (incremental w all_pdfs word_map cache));
  _ ← save_word_map_json w word_map;
  _ ← save_cache w cache;
  mret true.

(** * Vocabulary of the statements *)

(** What [update_all] leaves under a token: the union of what was there and
    what [new_data] has for it. *)
Definition joined (old new : option (gset Location)) : option (gset Location) :=
  match new with
  | Some locs => Some (default ∅ old ∪ locs)
  | None => old
  end.

(** An occurrence (token, document, page) of the index. *)
Definition occurs (word_map : TokenMap)
    (token file : string) (page : Z) : Prop :=
  ∃ locs, word_map !! token = Some locs ∧ (file, page) ∈ locs.

(** An occurrence listed in a [word_map.json] value. *)
Definition listed (data : IndexJSON)
    (token file : string) (page : Z) : Prop :=
  ∃ pdf_map pages,
    data !! token = Some pdf_map ∧ pdf_map !! file = Some pages ∧ page ∈ pages.

(** The same for the intermediate [structured_map]. *)
Definition grouped (sm : gmap string (gmap string (gset Z)))
    (token file : string) (page : Z) : Prop :=
  ∃ pdf_map pages,
    sm !! token = Some pdf_map ∧ pdf_map !! file = Some pages ∧ page ∈ pages.

(** No empty inner dict and no empty page set. *)
Definition inhabited (sm : gmap string (gmap string (gset Z))) : Prop :=
  ∀ token pdf_map, sm !! token = Some pdf_map →
    pdf_map ≠ ∅ ∧ ∀ file pages, pdf_map !! file = Some pages → pages ≠ ∅.

(** The token lists of the pages read before the first exception. *)
Fixpoint read_pages (pages : list PageData) : list (list string) :=
  match pages with
  | [] => []
  | p :: rest =>
      match page_tokens p with
      | None => []
      | Some tokens => tokens :: read_pages rest
      end
  end.

(** Whether [extract_tokens_from_pdf] reaches its [except] clause. *)
Definition extraction_fails (w : World) (pdf : string) : bool :=
  match fitz_open w pdf with
  | None => true
  | Some doc => existsb (λ p, bool_decide (page_tokens p = None)) doc
  end.

(** What [pdf_check_deleted] leaves under a token. *)
Definition purged (deleted_pdfs : gset string) (o : option (gset Location))
    : option (gset Location) :=
  match o with
  | None => None
  | Some locs =>
      let updated_locations :=
        filter (λ loc : string * Z, loc.1 ∉ deleted_pdfs) locs in
      if decide (updated_locations = ∅) then None else Some updated_locations
  end.

(** [as_completed] yields every future once, in some order. *)
Definition yields_all (w : World) : Prop := ∀ l, as_completed w l ≡ₚ l.

(** Lines 121-157 as a function of the world and of the disk they read:
    the word map and the cache that reach the two [save] calls. *)
Definition checkpoint_update (w : World) (d : Disk)
    : result (TokenMap * Cache) :=
  names ← os_listdir w;
  let all_pdfs := filter (λ f, is_pdf f = true) names in
  cache ← (load_cache d).2;
  match word_map_json d with
  | Absent => full_index w all_pdfs cache
  | _ =>
      word_map ← (load_existing_word_map_json d).2;
      incremental w all_pdfs word_map cache
  end.

(** The exceptions of a failed write: of [open(..., "w")] or of
    [json.dump]. *)
Definition is_write_error (e : exn) : Prop :=
  match e with
  | PermissionError _ | OSError _ => True
  | _ => False
  end.

(** No token with an empty dict, no document with an empty page list. *)
Definition no_empty_entry (data : IndexJSON) : Prop :=
  ∀ token pdf_map, data !! token = Some pdf_map →
    pdf_map ≠ ∅ ∧ ∀ file pages, pdf_map !! file = Some pages → pages ≠ [].

(** Every listed (document, page) pair names a key of the cache. *)
Definition no_dangling (data : IndexJSON) (cache : Cache) : Prop :=
  ∀ t f p, listed data t f p → is_Some (cache !! f).

(** The same for the checkpoint a run starts from; nothing is asked when
    there is no readable [word_map.json]. *)
Definition checkpoint_consistent (d : Disk) : Prop :=
  ∀ data t f p, word_map_json d = Content data → listed data t f p →
    ∃ cache, scan_cache_json d = Content cache ∧ is_Some (cache !! f).

(** The in-memory form of [no_dangling]. *)
Definition consistent (word_map : TokenMap) (cache : Cache) : Prop :=
  ∀ t f p, occurs word_map t f p → is_Some (cache !! f).

(** No token of the in-memory index maps to an empty set. *)
Definition no_empty_set (word_map : TokenMap) : Prop :=
  ∀ token locs, word_map !! token = Some locs → locs ≠ ∅.

(** A [word_map.json] value as [save_word_map_json] writes them: no empty
    dict, and every page list non-empty and strictly ascending. *)
Definition well_formed (data : IndexJSON) : Prop :=
  no_empty_entry data ∧
  ∀ token pdf_map file pages,
    data !! token = Some pdf_map → pdf_map !! file = Some pages →
    StronglySorted Z.lt pages.
(** Lines 141-146: the add pass or the delete pass, chosen on the sign of
    the difference of the two counts. *)
Definition first_pass (w : World) (all_pdfs : list string)
    (word_map : TokenMap) (cache : Cache) : result (TokenMap * Cache) :=
  let all_pdfs_set : gset string := list_to_set all_pdfs in
  let cached_pdfs_set : gset string := dom cache in
  let m := Z.of_nat (size all_pdfs_set) - Z.of_nat (size cached_pdfs_set) in
  if decide (m > 0) then
    pdf_check_add w (all_pdfs_set ∖ cached_pdfs_set) word_map cache
  else if decide (m < 0) then
    pdf_check_deleted (cached_pdfs_set ∖ all_pdfs_set) word_map cache
  else Ok (word_map, cache).

(** Lines 148-157: the scan of the time stamps and the re-extraction of
    the documents it selects. *)
Definition rescan (w : World) (all_pdfs : list string)
    (word_map : TokenMap) (cache : Cache) : result (TokenMap * Cache) :=
  modified_pdfs ← scan_modified w cache all_pdfs ∅;
  if decide (modified_pdfs = ∅) then Ok (word_map, cache)
  else
    '(word_map, cache) ← pdf_check_deleted modified_pdfs word_map cache;
    pdf_check_add w modified_pdfs word_map cache.

(** A cached document whose time stamp on disk is not the cached one. *)
Definition stale (w : World) (cache : Cache) (pdf : string) : Prop :=
  is_Some (cache !! pdf) ∧ modified <$> cache !! pdf ≠ mtime w pdf.

(** * Concrete folders *)

Definition text_page (tokens : list string) : PageData :=
  {| text_tokens := Some tokens; images := Some [] |}.

(** An image-only page on a machine where [convert_from_path] raises. *)
Definition scanned_page_without_ocr : PageData :=
  {| text_tokens := Some []; images := None |}.

Definition sample_docs (pdf : string) : option (list PageData) :=
  if decide (pdf = "A.pdf") then Some [text_page ["x"; "y"]]
  else if decide (pdf = "B.pdf") then Some [text_page ["y"]]
  else if decide (pdf = "C.pdf") then Some [text_page ["z"]]
  else if decide (pdf = "D.pdf") then Some [text_page ["w"]]
  else if decide (pdf = "E.pdf") then
    Some [text_page ["v"]; scanned_page_without_ocr; text_page ["u"]]
  else None.

(** A folder holding [names], every file stamped 100; the futures complete
    in reverse order of submission. *)
Definition sample_world (names : list string) (cache_ok : bool) : World :=
  {| listdir := Some names;
     mtime := λ pdf, if decide (pdf ∈ names) then Some 100 else None;
     fitz_open := sample_docs;
     as_completed := reverse;
     output_writable := true;
     cache_writable := cache_ok;
     output_truncated := false;
     cache_truncated := false |}.

Definition no_checkpoint : Disk :=
  {| word_map_json := Absent; scan_cache_json := Absent |}.

Definition stamp : CacheEntry := {| modified := 100 |}.

Definition index_AB : IndexJSON :=
  {[ "x" := {[ "A.pdf" := [1] ]};
     "y" := {[ "A.pdf" := [1]; "B.pdf" := [1] ]} ]}.

Definition index_ABC : IndexJSON :=
  {[ "x" := {[ "A.pdf" := [1] ]};
     "y" := {[ "A.pdf" := [1]; "B.pdf" := [1] ]};
     "z" := {[ "C.pdf" := [1] ]} ]}.

(** The checkpoint of a folder holding [A.pdf] and [B.pdf]. *)
Definition checkpoint_AB : Disk :=
  {| word_map_json := Content index_AB;
     scan_cache_json := Content {[ "A.pdf" := stamp; "B.pdf" := stamp ]} |}.

(** What a run persists from [checkpoint_AB] once [C.pdf] and [D.pdf] were
    added to the folder and [B.pdf] removed from it: [B.pdf] is still
    there. *)
Definition checkpoint_ABCD : Disk :=
  {| word_map_json :=
       Content {[ "x" := {[ "A.pdf" := [1] ]};
                  "y" := {[ "A.pdf" := [1]; "B.pdf" := [1] ]};
                  "z" := {[ "C.pdf" := [1] ]};
                  "w" := {[ "D.pdf" := [1] ]} ]};
     scan_cache_json :=
       Content {[ "A.pdf" := stamp; "B.pdf" := stamp;
                  "C.pdf" := stamp; "D.pdf" := stamp ]} |}.

(** What a second run on the same folder persists from [checkpoint_ABCD]. *)
Definition checkpoint_ACD : Disk :=
  {| word_map_json :=
       Content {[ "x" := {[ "A.pdf" := [1] ]};
                  "y" := {[ "A.pdf" := [1] ]};
                  "z" := {[ "C.pdf" := [1] ]};
                  "w" := {[ "D.pdf" := [1] ]} ]};
     scan_cache_json :=
       Content {[ "A.pdf" := stamp; "C.pdf" := stamp; "D.pdf" := stamp ]} |}.

(** [checkpoint_AB] with the index of a run that added [C.pdf] and could
    not write the cache. *)
Definition half_saved_ABC : Disk :=
  {| word_map_json := Content index_ABC;
     scan_cache_json := scan_cache_json checkpoint_AB |}.

(** [checkpoint_AB] after a run whose [json.dump] failed on
    [word_map.json]. *)
Definition truncated_index_AB : Disk :=
  {| word_map_json := Corrupt;
     scan_cache_json := scan_cache_json checkpoint_AB |}.

(** [checkpoint_AB] after a run that added [C.pdf] and whose [json.dump]
    failed on [scan_cache.json]. *)
Definition truncated_cache_ABC : Disk :=
  {| word_map_json := Content index_ABC; scan_cache_json := Corrupt |}.

(** A folder that lists [ghost.pdf], a broken link whose time stamp cannot
    be read. *)
Definition ghost_world : World :=
  {| listdir := Some ["A.pdf"; "ghost.pdf"];
     mtime := λ pdf, if decide (pdf = "A.pdf") then Some 100 else None;
     fitz_open := sample_docs;
     as_completed := reverse;
     output_writable := true;
     cache_writable := true;
     output_truncated := false;
     cache_truncated := false |}.

(** A folder on a disk that fills up: [open(..., "w")] succeeds and
    [json.dump] fails, on [word_map.json] when [index_ok] is [false], on
    [scan_cache.json] otherwise. *)
Definition full_disk_world (names : list string) (index_ok : bool) : World :=
  {| listdir := Some names;
     mtime := λ pdf, if decide (pdf ∈ names) then Some 100 else None;
     fitz_open := sample_docs;
     as_completed := reverse;
     output_writable := index_ok;
     cache_writable := false;
     output_truncated := true;
     cache_truncated := true |}.

(** The in-memory index of [checkpoint_AB]. *)
Definition word_map_AB : TokenMap :=
  {[ "x" := {[ ("A.pdf", 1) ]};
     "y" := {[ ("A.pdf", 1); ("B.pdf", 1) ]} ]}.

Definition cache_AB : Cache := {[ "A.pdf" := stamp; "B.pdf" := stamp ]}.

(** What lines 141-157 return from [word_map_AB] and [cache_AB] on a folder
    holding [A.pdf], [C.pdf] and [D.pdf]. *)
Definition word_map_ABCD : TokenMap :=
  {[ "x" := {[ ("A.pdf", 1) ]};
     "y" := {[ ("A.pdf", 1); ("B.pdf", 1) ]};
     "z" := {[ ("C.pdf", 1) ]};
     "w" := {[ ("D.pdf", 1) ]} ]}.

Definition cache_ABCD : Cache :=
  {[ "A.pdf" := stamp; "B.pdf" := stamp; "C.pdf" := stamp; "D.pdf" := stamp ]}.

(** No index, and a cache left by an earlier life of the folder. *)
Definition old_cache_only : Disk :=
  {| word_map_json := Absent;
     scan_cache_json := Content {[ "Z.pdf" := {| modified := 7 |} ]} |}.

(** * Properties *)

(** ** Union of token maps *)

Lemma lookup_update_locations (token : string) (locations : gset Location)
    (merged : TokenMap) (t : string) :
  update_locations token locations merged !! t =
    if decide (token = t) then Some (default ∅ (merged !! t) ∪ locations)
    else merged !! t.
Proof.
  unfold update_locations. rewrite lookup_insert.
  case_decide; by subst.
Qed.

Lemma lookup_update_all (new_data word_map : TokenMap) t :
  update_all new_data word_map !! t = joined (word_map !! t) (new_data !! t).
Proof.
  unfold update_all. revert t.
  apply (map_fold_weak_ind
           (λ r (m : TokenMap),
              ∀ t, r !! t = joined (word_map !! t) (m !! t))).
  - intros t. by rewrite lookup_empty.
  - intros i x m r Hi IH t. rewrite lookup_update_locations, lookup_insert.
    case_decide as Heq; [subst t|apply IH].
    rewrite IH, Hi. done.
Qed.

Lemma joined_assoc_comm o a b :
  joined (joined o a) b = joined (joined o b) a.
Proof.
  destruct o as [s|], a as [x|], b as [y|]; simpl; try done; f_equal.
  - by rewrite <-!(assoc_L _), (comm_L _ x).
  - by rewrite <-!(assoc_L _), (comm_L _ x).
Qed.

Lemma update_all_comm (a b m : TokenMap) :
  update_all a (update_all b m) = update_all b (update_all a m).
Proof.
  apply map_eq. intros t. rewrite !lookup_update_all. apply joined_assoc_comm.
Qed.

Lemma merge_from_permutation (l l' : list TokenMap) :
  l ≡ₚ l' →
  ∀ acc, foldl (λ merged token_map, update_all token_map merged) acc l =
         foldl (λ merged token_map, update_all token_map merged) acc l'.
Proof.
  induction 1 as [|x l l' _ IH|x y l|l l' l'' _ IH1 _ IH2]; intros acc; simpl.
  - done.
  - apply IH.
  - by rewrite update_all_comm.
  - by rewrite IH1.
Qed.

Lemma occurs_empty token file page : ¬ occurs ∅ token file page.
Proof. intros (locs & Hl & _). by rewrite lookup_empty in Hl. Qed.

Lemma occurs_update_locations (word_map : TokenMap)
    (token : string) (locations : gset Location) (t f : string) (p : Z) :
  occurs (update_locations token locations word_map) t f p ↔
  occurs word_map t f p ∨ (t = token ∧ (f, p) ∈ locations).
Proof.
  unfold occurs. setoid_rewrite lookup_update_locations.
  destruct (decide (token = t)) as [->|Hne].
  - destruct (word_map !! t) as [s|]; simpl; split.
    + intros (locs & [= <-] & [Hin|Hin]%elem_of_union); eauto.
    + intros [(locs & [= <-] & Hin)|[_ Hin]]; eexists; split; eauto; set_solver.
    + intros (locs & [= <-] & [Hin|Hin]%elem_of_union); [set_solver|eauto].
    + intros [(locs & [=] & _)|[_ Hin]]. eexists; split; eauto. set_solver.
  - split; [by left|]. intros [?|[-> _]]; done.
Qed.

Lemma occurs_update_all (new_data word_map : TokenMap)
    (t f : string) (p : Z) :
  occurs (update_all new_data word_map) t f p ↔
  occurs word_map t f p ∨ occurs new_data t f p.
Proof.
  unfold occurs. setoid_rewrite lookup_update_all.
  destruct (new_data !! t) as [s|], (word_map !! t) as [s'|]; simpl; split.
  - intros (locs & [= <-] & [Hin|Hin]%elem_of_union); eauto.
  - intros [(locs & [= <-] & Hin)|(locs & [= <-] & Hin)];
      eexists; split; eauto; set_solver.
  - intros (locs & [= <-] & [Hin|Hin]%elem_of_union); [set_solver|eauto].
  - intros [(locs & [=] & _)|(locs & [= <-] & Hin)].
    eexists; split; eauto. set_solver.
  - by left.
  - intros [?|(locs & [=] & _)]; done.
  - by left.
  - intros [?|(locs & [=] & _)]; done.
Qed.

Lemma occurs_merge_from (l : list TokenMap) :
  ∀ acc t f p,
    occurs (foldl (λ merged token_map, update_all token_map merged) acc l) t f p ↔
    occurs acc t f p ∨ ∃ token_map, token_map ∈ l ∧ occurs token_map t f p.
Proof.
  induction l as [|a l IHl]; intros acc t f p; simpl.
  - split; [by left|]. intros [?|(? & []%elem_of_nil & _)]; done.
  - rewrite IHl, occurs_update_all. split.
    + intros [[?|?]|(tm & Hin & Ho)]; [by left| |].
      * right. exists a. split; [left|done].
      * right. exists tm. split; [by right|done].
    + intros [?|(tm & [->|Hin]%elem_of_cons & Ho)]; [by left; left|by left; right|].
      right. eauto.
Qed.

Lemma occurs_merge_token_maps (l : list TokenMap)
    (t f : string) (p : Z) :
  occurs (merge_token_maps l) t f p ↔
  ∃ token_map, token_map ∈ l ∧ occurs token_map t f p.
Proof.
  unfold merge_token_maps. rewrite occurs_merge_from. split; [|by right].
  intros [[]%occurs_empty|?]; done.
Qed.

(** C9.  [merge_token_maps] does not depend on the order of its argument:
    two lists of partial token maps that are permutations of each other are
    merged into the same map, so the completion order of the futures does
    not change the merged map. *)
Theorem merge_token_maps_permutation
    (all_maps all_maps' : list TokenMap) :
  all_maps ≡ₚ all_maps' →
  merge_token_maps all_maps = merge_token_maps all_maps'.
Proof.
  intros Hp. unfold merge_token_maps. by apply merge_from_permutation.
Qed.

Lemma update_all_absorb (new_data word_map : TokenMap) :
  (∀ token locs, new_data !! token = Some locs →
     ∃ present, word_map !! token = Some present ∧ locs ⊆ present) →
  update_all new_data word_map = word_map.
Proof.
  intros Hsub. apply map_eq. intros t. rewrite lookup_update_all.
  destruct (new_data !! t) as [locs|] eqn:Hn; [|done].
  destruct (Hsub _ _ Hn) as (present & -> & Hincl). simpl.
  f_equal. set_solver.
Qed.

(** C7.  Lines 100-101 of [pdf_check_add] (and the loop of
    [merge_token_maps]) have union semantics: applying the same additions a
    second time gives the index obtained by applying them once, and
    additions whose occurrences are all present in the index already leave
    it unchanged. *)
Theorem update_all_union_semantics
    (word_map new_data : TokenMap) :
  update_all new_data (update_all new_data word_map) = update_all new_data word_map
  ∧ ((∀ token locs, new_data !! token = Some locs →
        ∃ present, word_map !! token = Some present ∧ locs ⊆ present) →
     update_all new_data word_map = word_map).
Proof.
  split; [|apply update_all_absorb].
  apply update_all_absorb. intros token locs Hn.
  rewrite lookup_update_all, Hn. simpl. eexists. split; [done|]. set_solver.
Qed.

(** ** The saved index *)

Lemma grouped_add_page (sm : gmap string (gmap string (gset Z)))
    (token file : string) (page : Z) (t f : string) (p : Z) :
  grouped (add_page token file page sm) t f p ↔
  grouped sm t f p ∨ (t = token ∧ f = file ∧ p = page).
Proof.
  unfold grouped, add_page.
  destruct (decide (t = token)) as [->|Hne].
  2:{ setoid_rewrite lookup_insert_ne; [|done]. naive_solver. }
  setoid_rewrite lookup_insert_eq.
  destruct (decide (f = file)) as [->|Hnf].
  - split.
    + intros (pdf_map & pages & [= <-] & Hf & Hp).
      rewrite lookup_insert_eq in Hf. injection Hf as <-.
      apply elem_of_union in Hp as [Hp|Hp]; [|set_solver].
      left. destruct (sm !! token) as [pm|]; simpl in *;
        [|by rewrite lookup_empty in Hp].
      destruct (pm !! file) as [s|] eqn:Hs; simpl in *; [|set_solver].
      eauto.
    + intros [(pdf_map & pages & Hsm & Hf & Hp)|(_ & _ & ->)].
      * rewrite Hsm. simpl. eexists _, _. split; [done|].
        rewrite lookup_insert_eq. split; [done|]. rewrite Hf. set_solver.
      * eexists _, _. split; [done|]. rewrite lookup_insert_eq.
        split; [done|]. set_solver.
  - split.
    + intros (pdf_map & pages & [= <-] & Hf & Hp).
      rewrite lookup_insert_ne in Hf by done.
      left. destruct (sm !! token) as [pm|]; simpl in *;
        [eauto|by rewrite lookup_empty in Hf].
    + intros [(pdf_map & pages & Hsm & Hf & Hp)|(_ & -> & _)]; [|done].
      rewrite Hsm. simpl. eexists _, _. split; [done|].
      rewrite lookup_insert_ne by done. eauto.
Qed.

Lemma inhabited_add_page (sm : gmap string (gmap string (gset Z)))
    (token file : string) (page : Z) :
  inhabited sm → inhabited (add_page token file page sm).
Proof.
  intros Hsm t pdf_map. unfold add_page. rewrite lookup_insert.
  case_decide as Ht; [subst t|apply Hsm].
  intros [= <-]. split.
  - apply insert_non_empty.
  - intros f pages. rewrite lookup_insert. case_decide as Hf.
    + intros [= <-]. set_solver.
    + destruct (sm !! token) as [pm|] eqn:Hpm; simpl.
      * by apply (Hsm _ _ Hpm).
      * by rewrite lookup_empty.
Qed.

Lemma structured_spec (word_map : TokenMap) :
  inhabited (structured word_map) ∧
  ∀ t f p, grouped (structured word_map) t f p ↔ occurs word_map t f p.
Proof.
  unfold structured.
  apply (map_fold_weak_ind
           (λ r (m : TokenMap),
              inhabited r ∧ ∀ t f p, grouped r t f p ↔ occurs m t f p)).
  - split.
    + intros t pm. by rewrite lookup_empty.
    + intros t f p. split.
      * intros (? & ? & Hl & _). by rewrite lookup_empty in Hl.
      * by intros []%occurs_empty.
  - intros token locations m r Hfresh [Hwf Hocc].
    assert (inhabited (set_fold (λ '(file, page) sm, add_page token file page sm)
                                r locations) ∧
            ∀ t f p,
              grouped (set_fold (λ '(file, page) sm, add_page token file page sm)
                                r locations) t f p ↔
              grouped r t f p ∨ (t = token ∧ (f, p) ∈ locations)) as [Hwf' Hocc'].
    { apply (set_fold_ind_L
               (λ r' (X : gset Location),
                  inhabited r' ∧
                  ∀ t f p, grouped r' t f p ↔
                           grouped r t f p ∨ (t = token ∧ (f, p) ∈ X))).
      - split; [done|]. intros t f p. set_solver.
      - intros [file page] X r' Hnew [Hwf' Hocc']. split.
        + by apply inhabited_add_page.
        + intros t f p. rewrite grouped_add_page, Hocc'.
          rewrite elem_of_union, elem_of_singleton. naive_solver. }
    split; [done|]. intros t f p. rewrite Hocc', Hocc. unfold occurs.
    rewrite lookup_insert. case_decide as Heq.
    + subst t. rewrite Hfresh. naive_solver.
    + naive_solver.
Qed.

Lemma elem_of_sorted (pages : gset Z) (page : Z) : page ∈ sorted pages ↔ page ∈ pages.
Proof.
  unfold sorted. rewrite merge_sort_Permutation. apply elem_of_elements.
Qed.

Lemma listed_to_json (word_map : TokenMap)
    (t f : string) (p : Z) :
  listed (to_json word_map) t f p ↔ occurs word_map t f p.
Proof.
  rewrite <-(proj2 (structured_spec word_map)).
  unfold listed, grouped, to_json. setoid_rewrite lookup_fmap. split.
  - intros (pdf_map & pages & Hl & Hf & Hp).
    destruct (structured word_map !! t) as [pm|]; simplify_eq/=.
    rewrite lookup_fmap in Hf.
    destruct (pm !! f) as [s|] eqn:Hs; simplify_eq/=.
    apply elem_of_sorted in Hp. eauto.
  - intros (pdf_map & pages & -> & Hf & Hp). simpl.
    eexists _, _. split; [done|]. rewrite lookup_fmap, Hf. simpl.
    split; [done|]. by apply elem_of_sorted.
Qed.

Lemma strictly_sorted (l : list Z) :
  StronglySorted Z.le l → NoDup l → StronglySorted Z.lt l.
Proof.
  induction 1 as [|x l Hl IH Hx]; intros Hnd; [constructor|].
  apply NoDup_cons in Hnd as [Hnotin Hnd].
  constructor; [by apply IH|].
  apply Forall_forall. intros y Hy.
  assert (x ≤ y) by (rewrite Forall_forall in Hx; by apply Hx).
  assert (x ≠ y) by (intros ->; done). lia.
Qed.

Lemma sorted_ascending (pages : gset Z) : StronglySorted Z.lt (sorted pages).
Proof.
  apply strictly_sorted.
  - apply StronglySorted_merge_sort; apply _.
  - unfold sorted. rewrite merge_sort_Permutation. apply NoDup_elements.
Qed.

Lemma to_json_pages_sorted
    (word_map : TokenMap)
    (token pdf : string) (pdf_map : gmap string (list Z)) (pages : list Z) :
  to_json word_map !! token = Some pdf_map →
  pdf_map !! pdf = Some pages →
  StronglySorted Z.lt pages ∧ NoDup pages ∧
  ∀ page, page ∈ pages ↔ occurs word_map token pdf page.
Proof.
  intros Ht Hf.
  assert (∃ s : gset Z, pages = sorted s) as [s ->].
  { unfold to_json in Ht. rewrite lookup_fmap in Ht.
    destruct (structured word_map !! token) as [pm|]; simplify_eq/=.
    rewrite lookup_fmap in Hf. destruct (pm !! pdf) as [s|]; simplify_eq/=.
    eauto. }
  split; [apply sorted_ascending|]. split.
  - unfold sorted. rewrite merge_sort_Permutation. apply NoDup_elements.
  - intros page. rewrite <-listed_to_json. split.
    + intros Hp. exists pdf_map, (sorted s). eauto.
    + intros (pm & pages & Ht' & Hf' & Hp). by simplify_eq.
Qed.

(** C8.  In the value that [save_word_map_json] writes to [word_map.json],
    every token maps to a dict from document name to a list of pages that
    is strictly ascending (hence without duplicates), and the list holds
    exactly the pages the in-memory index has for that token and
    document. *)
Theorem saved_pages_sorted_distinct (w : World) (word_map : TokenMap)
    (d d' : Disk) (data : IndexJSON)
    (token pdf : string) (pdf_map : gmap string (list Z)) (pages : list Z) :
  save_word_map_json w word_map d = (d', Ok ()) →
  word_map_json d' = Content data →
  data !! token = Some pdf_map →
  pdf_map !! pdf = Some pages →
  StronglySorted Z.lt pages ∧ NoDup pages ∧
  ∀ page, page ∈ pages ↔ occurs word_map token pdf page.
Proof.
  unfold save_word_map_json.
  destruct (output_writable w); [|by destruct (output_truncated w)].
  intros [= <-]. simpl. intros [= <-]. apply to_json_pages_sorted.
Qed.

(** ** The loaded index *)

Lemma occurs_add_pages (token file : string) (pages : list Z) :
  ∀ (word_map : TokenMap) (t f : string) (p : Z),
    occurs (foldl (λ word_map page,
                     update_locations token {[ (file, page) ]} word_map)
                  word_map pages) t f p ↔
    occurs word_map t f p ∨ (t = token ∧ f = file ∧ p ∈ pages).
Proof.
  induction pages as [|page pages IHp]; intros word_map t f p; simpl.
  - split; [by left|]. intros [?|(_ & _ & []%elem_of_nil)]; done.
  - rewrite IHp, occurs_update_locations, elem_of_singleton, elem_of_cons.
    naive_solver.
Qed.

Lemma occurs_from_json (data : IndexJSON)
    (t f : string) (p : Z) :
  occurs (from_json data) t f p ↔ listed data t f p.
Proof.
  unfold from_json. revert t f p.
  apply (map_fold_weak_ind
           (λ r (m : IndexJSON),
              ∀ t f p, occurs r t f p ↔ listed m t f p)).
  - intros t f p. split; [by intros []%occurs_empty|].
    intros (? & ? & Hl & _). by rewrite lookup_empty in Hl.
  - intros token file_pages m r Hfresh IH.
    assert (∀ t f p,
      occurs (map_fold (λ file pages word_map,
                foldl (λ word_map page,
                         update_locations token {[ (file, page) ]} word_map)
                      word_map pages) r file_pages) t f p ↔
      occurs r t f p ∨
      (t = token ∧ ∃ pages, file_pages !! f = Some pages ∧ p ∈ pages)) as Hin.
    { apply (map_fold_weak_ind
               (λ r' (fp : gmap string (list Z)),
                  ∀ t f p, occurs r' t f p ↔
                    occurs r t f p ∨
                    (t = token ∧ ∃ pages, fp !! f = Some pages ∧ p ∈ pages))).
      - intros t f p. split; [by left|].
        intros [?|(_ & ? & Hl & _)]; [done|by rewrite lookup_empty in Hl].
      - intros file pages fp r' Hfp IH' t f p.
        rewrite occurs_add_pages, IH'. rewrite lookup_insert.
        case_decide as Hf.
        + subst f. rewrite Hfp. naive_solver.
        + naive_solver. }
    intros t f p. rewrite Hin, IH. unfold listed. rewrite lookup_insert.
    case_decide as Ht.
    + subst t. rewrite Hfresh. naive_solver.
    + naive_solver.
Qed.

(** ** Extraction *)

Lemma occurs_add_tokens (filename : string) (page : Z) (tokens : list string) :
  ∀ (token_map : TokenMap) (t f : string) (p : Z),
    occurs (foldl (λ tm token, update_locations token {[ (filename, page) ]} tm)
                  token_map tokens) t f p ↔
    occurs token_map t f p ∨ (t ∈ tokens ∧ f = filename ∧ p = page).
Proof.
  induction tokens as [|token tokens IHt]; intros token_map t f p; simpl.
  - split; [by left|]. intros [?|([]%elem_of_nil & _)]; done.
  - rewrite IHt, occurs_update_locations, elem_of_singleton, elem_of_cons.
    naive_solver.
Qed.

Lemma occurs_extract_pages (filename : string) (pages : list PageData) :
  ∀ (page_number : Z) (token_map : TokenMap)
    (t f : string) (p : Z),
    occurs (extract_pages filename page_number pages token_map) t f p ↔
    occurs token_map t f p ∨
    (f = filename ∧
     ∃ (i : nat) tokens, read_pages pages !! i = Some tokens ∧ t ∈ tokens ∧
                         p = page_number + Z.of_nat i + 1).
Proof.
  induction pages as [|pg pages IHp]; intros page_number token_map t f p; simpl.
  - split; [by left|]. intros [?|(_ & i & ? & Hl & _)]; [done|].
    by rewrite lookup_nil in Hl.
  - destruct (page_tokens pg) as [tokens|].
    + rewrite IHp, occurs_add_tokens. split.
      * intros [[?|(Ht & -> & ->)]|(-> & i & toks & Hl & Ht & ->)].
        -- by left.
        -- right. split; [done|]. exists 0%nat, tokens. split; [done|].
           split; [done|lia].
        -- right. split; [done|]. exists (S i), toks. split; [done|].
           split; [done|lia].
      * intros [?|(-> & [|i] & toks & Hl & Ht & ->)]; [by left; left| |].
        -- simpl in Hl. injection Hl as <-. left. right.
           split; [done|]. split; [done|lia].
        -- right. split; [done|]. exists i, toks. split; [done|].
           split; [done|lia].
    + split; [by left|]. intros [?|(_ & i & ? & Hl & _)]; [done|].
      by rewrite lookup_nil in Hl.
Qed.

(** What one document contributes: the tokens of the pages read before the
    first exception, each at its 1-based page number. *)
Lemma occurs_extract (w : World) (pdf t f : string) (p : Z) :
  occurs (extract_tokens_from_pdf w pdf) t f p ↔
  f = pdf ∧ ∃ doc (i : nat) tokens,
    fitz_open w pdf = Some doc ∧ read_pages doc !! i = Some tokens ∧
    t ∈ tokens ∧ p = Z.of_nat i + 1.
Proof.
  unfold extract_tokens_from_pdf. destruct (fitz_open w pdf) as [doc|].
  - rewrite occurs_extract_pages. split.
    + intros [[]%occurs_empty|(-> & i & toks & Hl & Ht & ->)].
      split; [done|]. exists doc, i, toks. done.
    + intros (-> & doc' & i & toks & [= <-] & Hl & Ht & ->).
      right. split; [done|]. exists i, toks. done.
  - split; [by intros []%occurs_empty|]. by intros (_ & ? & ? & ? & [=] & _).
Qed.

Lemma occurs_extract_name (w : World) (pdf t f : string) (p : Z) :
  occurs (extract_tokens_from_pdf w pdf) t f p → f = pdf.
Proof. rewrite occurs_extract. naive_solver. Qed.

(** ** Deleting documents *)

Lemma lookup_purge_all (deleted_pdfs : gset string)
    (word_map : TokenMap) (t : string) :
  map_fold (λ token _ wm, purge_token deleted_pdfs token wm) word_map word_map !! t
    = purged deleted_pdfs (word_map !! t).
Proof.
  assert (∀ m : TokenMap, ∀ t,
    map_fold (λ token (_ : gset Location) wm,
                purge_token deleted_pdfs token wm) word_map m !! t =
    match m !! t with
    | Some _ => purged deleted_pdfs (word_map !! t)
    | None => word_map !! t
    end) as Hgen.
  { intros m. apply (map_fold_weak_ind
      (λ r (m : TokenMap), ∀ t,
         r !! t = match m !! t with
                  | Some _ => purged deleted_pdfs (word_map !! t)
                  | None => word_map !! t
                  end)).
    - intros t'. by rewrite lookup_empty.
    - intros i x m' r Hi IH t'. unfold purge_token. rewrite (IH i), Hi.
      rewrite (lookup_insert m'). destruct (decide (i = t')) as [->|Hne].
      + unfold purged. destruct (word_map !! t') as [locs|]; simpl.
        * case_decide; [by rewrite lookup_delete_eq|by rewrite lookup_insert_eq].
        * case_decide as Hd; [by rewrite lookup_delete_eq|].
          exfalso. apply Hd. set_solver.
      + case_decide.
        * rewrite lookup_delete_ne by done. apply IH.
        * rewrite lookup_insert_ne by done. apply IH. }
  rewrite Hgen. by destruct (word_map !! t).
Qed.

Lemma occurs_purge_all (deleted_pdfs : gset string)
    (word_map : TokenMap) (t f : string) (p : Z) :
  occurs (map_fold (λ token _ wm, purge_token deleted_pdfs token wm)
                   word_map word_map) t f p ↔
  occurs word_map t f p ∧ f ∉ deleted_pdfs.
Proof.
  unfold occurs. rewrite lookup_purge_all.
  destruct (word_map !! t) as [locs|]; simpl; [|naive_solver].
  case_decide as Hempty; split.
  - by intros (? & [=] & _).
  - intros [(? & [= <-] & Hin) Hf]. exfalso.
    assert ((f, p) ∈ filter (λ loc : string * Z, loc.1 ∉ deleted_pdfs) locs) as Hx
      by (apply elem_of_filter; done).
    rewrite Hempty in Hx. set_solver.
  - intros (? & [= <-] & [Hf Hin]%elem_of_filter). eauto.
  - intros [(? & [= <-] & Hin) Hf]. eexists. split; [done|].
    by apply elem_of_filter.
Qed.

Lemma del_all_ok (pdfs : list string) :
  ∀ cache : Cache,
    NoDup pdfs → (∀ pdf, pdf ∈ pdfs → is_Some (cache !! pdf)) →
    ∃ cache', del_all pdfs cache = Ok cache' ∧
              ∀ k, cache' !! k = if decide (k ∈ pdfs) then None else cache !! k.
Proof.
  induction pdfs as [|pdf rest IHr]; intros cache Hnd Hall; simpl.
  - exists cache. split; [done|]. intros k.
    destruct (decide (k ∈ [])) as [[]%elem_of_nil|]; done.
  - apply NoDup_cons in Hnd as [Hnotin Hnd].
    destruct (Hall pdf) as [e He]; [left|]. rewrite He.
    destruct (IHr (delete pdf cache) Hnd) as (cache' & Hdel & Hlook).
    { intros x Hx. rewrite lookup_delete_ne; [apply Hall; by right|].
      intros ->. done. }
    exists cache'. split; [done|]. intros k. rewrite Hlook.
    destruct (decide (k = pdf)) as [->|Hne].
    + rewrite decide_False by done. rewrite decide_True by left.
      apply lookup_delete_eq.
    + rewrite lookup_delete_ne by done.
      destruct (decide (k ∈ rest)).
      * rewrite decide_True; [done|by right].
      * rewrite decide_False; [done|]. intros [?|?]%elem_of_cons; done.
Qed.

Lemma del_all_key_error (pdfs : list string) :
  ∀ cache : Cache,
    NoDup pdfs → (∃ pdf, pdf ∈ pdfs ∧ cache !! pdf = None) →
    ∃ k, k ∈ pdfs ∧ cache !! k = None ∧ del_all pdfs cache = Raise (KeyError k).
Proof.
  induction pdfs as [|pdf rest IHr]; intros cache Hnd (x & Hx & Hnone); simpl.
  - by apply elem_of_nil in Hx.
  - apply NoDup_cons in Hnd as [Hnotin Hnd].
    destruct (cache !! pdf) as [e|] eqn:He.
    + apply elem_of_cons in Hx as [->|Hx]; [congruence|].
      destruct (IHr (delete pdf cache) Hnd) as (k & Hk & Hkn & Hdel).
      { exists x. split; [done|]. rewrite lookup_delete_ne; [done|].
        intros ->. done. }
      exists k. split; [by right|]. split; [|done].
      rewrite lookup_delete_ne in Hkn; [done|]. intros ->. done.
    + exists pdf. split; [left|]. done.
Qed.

(** ** The cache passes *)

Lemma record_mtimes_inv (w : World) (pdfs : list string) :
  ∀ cache cache' : Cache,
    record_mtimes w pdfs cache = Ok cache' →
    ∀ k, cache' !! k = if decide (k ∈ pdfs) then Build_CacheEntry <$> mtime w k
                       else cache !! k.
Proof.
  induction pdfs as [|pdf rest IHr]; intros cache cache' Hrec k; simpl in Hrec.
  - injection Hrec as <-. destruct (decide (k ∈ [])) as [[]%elem_of_nil|]; done.
  - unfold getmtime in Hrec. destruct (mtime w pdf) as [t|] eqn:Ht; [|done].
    simpl in Hrec. rewrite (IHr _ _ Hrec k).
    destruct (decide (k ∈ rest)) as [Hin|Hnin].
    + rewrite decide_True; [done|by right].
    + rewrite lookup_insert. destruct (decide (pdf = k)) as [->|Hne].
      * rewrite decide_True by left. by rewrite Ht.
      * rewrite decide_False; [done|].
        intros [?|?]%elem_of_cons; [by subst|done].
Qed.

Lemma record_mtimes_total (w : World) (pdfs : list string) :
  ∀ cache : Cache,
    (∀ pdf, pdf ∈ pdfs → is_Some (mtime w pdf)) →
    ∃ cache', record_mtimes w pdfs cache = Ok cache'.
Proof.
  induction pdfs as [|pdf rest IHr]; intros cache Hall; simpl; [eauto|].
  unfold getmtime. destruct (Hall pdf) as [t ->]; [left|]. simpl.
  apply IHr. intros x Hx. apply Hall. by right.
Qed.

Lemma scan_modified_inv (w : World) (cache : Cache)
    (pdfs : list string) :
  ∀ (acc modified_pdfs : gset string),
    scan_modified w cache pdfs acc = Ok modified_pdfs →
    ∀ k, k ∈ modified_pdfs ↔
         k ∈ acc ∨ (k ∈ pdfs ∧ modified <$> cache !! k ≠ mtime w k).
Proof.
  induction pdfs as [|pdf rest IHr]; intros acc M Hscan k; simpl in Hscan.
  - injection Hscan as <-. split; [by left|].
    intros [?|[[]%elem_of_nil _]]; done.
  - unfold getmtime in Hscan. destruct (mtime w pdf) as [t|] eqn:Ht; [|done].
    simpl in Hscan. rewrite (IHr _ _ Hscan k), elem_of_cons.
    case_decide as Heq.
    + split; [naive_solver|].
      intros [?|[[->|?] Hne]]; [by left|congruence|by right].
    + rewrite elem_of_union, elem_of_singleton. split; [|naive_solver].
      intros [[?| ->]|[? ?]]; [by left| |naive_solver].
      right. split; [by left|congruence].
Qed.

Lemma scan_modified_total (w : World) (cache : Cache)
    (pdfs : list string) :
  ∀ acc : gset string,
    (∀ pdf, pdf ∈ pdfs → is_Some (mtime w pdf)) →
    ∃ modified_pdfs, scan_modified w cache pdfs acc = Ok modified_pdfs.
Proof.
  induction pdfs as [|pdf rest IHr]; intros acc Hall; simpl; [eauto|].
  unfold getmtime. destruct (Hall pdf) as [t ->]; [left|]. simpl.
  apply IHr. intros x Hx. apply Hall. by right.
Qed.

Lemma occurs_extract_all (w : World) (pdfs : list string) (t f : string) (p : Z) :
  yields_all w →
  occurs (merge_token_maps (as_completed w (extract_tokens_from_pdf w <$> pdfs)))
         t f p ↔
  ∃ pdf, pdf ∈ pdfs ∧ occurs (extract_tokens_from_pdf w pdf) t f p.
Proof.
  intros Hw. rewrite occurs_merge_token_maps.
  setoid_rewrite (Hw _). setoid_rewrite list_elem_of_fmap. naive_solver.
Qed.

Lemma pdf_check_add_inv (w : World) (new_pdfs : gset string)
    (word_map word_map' : TokenMap)
    (cache cache' : Cache) :
  yields_all w →
  pdf_check_add w new_pdfs word_map cache = Ok (word_map', cache') →
  (∀ t f p, occurs word_map' t f p ↔
            occurs word_map t f p ∨
            ∃ pdf, pdf ∈ new_pdfs ∧ occurs (extract_tokens_from_pdf w pdf) t f p)
  ∧ ∀ k, cache' !! k = if decide (k ∈ new_pdfs)
                       then Build_CacheEntry <$> mtime w k else cache !! k.
Proof.
  intros Hw. unfold pdf_check_add. case_decide as Hempty.
  - intros [= <- <-]. subst new_pdfs. split.
    + intros t f p. set_solver.
    + intros k. rewrite decide_False; [done|set_solver].
  - destruct (record_mtimes w (elements new_pdfs) cache) as [e|c] eqn:Hrec;
      [done|]. simpl. intros [= <- <-]. split.
    + intros t f p. rewrite occurs_update_all, occurs_extract_all by done.
      by setoid_rewrite elem_of_elements.
    + intros k. rewrite (record_mtimes_inv _ _ _ _ Hrec k).
      destruct (decide (k ∈ new_pdfs)).
      * rewrite decide_True; [done|by apply elem_of_elements].
      * rewrite decide_False; [done|by rewrite elem_of_elements].
Qed.

Lemma pdf_check_add_total (w : World) (new_pdfs : gset string)
    (word_map : TokenMap) (cache : Cache) :
  (∀ pdf, pdf ∈ new_pdfs → is_Some (mtime w pdf)) →
  ∃ r, pdf_check_add w new_pdfs word_map cache = Ok r.
Proof.
  intros Hall. unfold pdf_check_add. case_decide; [eauto|].
  destruct (record_mtimes_total w (elements new_pdfs) cache) as [c ->]; [|simpl; eauto].
  intros pdf Hin. apply Hall. by apply elem_of_elements.
Qed.

Lemma pdf_check_deleted_inv (deleted_pdfs : gset string)
    (word_map word_map' : TokenMap)
    (cache cache' : Cache) :
  pdf_check_deleted deleted_pdfs word_map cache = Ok (word_map', cache') →
  (∀ t f p, occurs word_map' t f p ↔ occurs word_map t f p ∧ f ∉ deleted_pdfs)
  ∧ (∀ k, cache' !! k = if decide (k ∈ deleted_pdfs) then None else cache !! k)
  ∧ ∀ k, k ∈ deleted_pdfs → is_Some (cache !! k).
Proof.
  unfold pdf_check_deleted. case_decide as Hempty.
  - intros [= <- <-]. subst deleted_pdfs. split; [|split].
    + intros t f p. set_solver.
    + intros k. rewrite decide_False; [done|set_solver].
    + set_solver.
  - destruct (del_all (elements deleted_pdfs) cache) as [e|c] eqn:Hdel; [done|].
    simpl. intros [= <- <-].
    assert (∀ k, k ∈ deleted_pdfs → is_Some (cache !! k)) as Hsub.
    { intros k Hk. destruct (cache !! k) eqn:Hc; [done|].
      destruct (del_all_key_error (elements deleted_pdfs) cache) as (? & _ & _ & He).
      - apply NoDup_elements.
      - exists k. split; [by apply elem_of_elements|done].
      - congruence. }
    split; [|split; [|done]].
    + intros t f p. apply occurs_purge_all.
    + intros k. destruct (del_all_ok (elements deleted_pdfs) cache)
        as (c' & Hc' & Hlook).
      * apply NoDup_elements.
      * intros pdf Hin. apply Hsub. by apply elem_of_elements.
      * assert (c' = c) as -> by congruence. rewrite Hlook.
        destruct (decide (k ∈ deleted_pdfs)).
        -- rewrite decide_True; [done|by apply elem_of_elements].
        -- rewrite decide_False; [done|by rewrite elem_of_elements].
Qed.

Lemma pdf_check_deleted_total (deleted_pdfs : gset string)
    (word_map : TokenMap) (cache : Cache) :
  (∀ k, k ∈ deleted_pdfs → is_Some (cache !! k)) →
  ∃ r, pdf_check_deleted deleted_pdfs word_map cache = Ok r.
Proof.
  intros Hsub. unfold pdf_check_deleted. case_decide; [eauto|].
  destruct (del_all_ok (elements deleted_pdfs) cache) as (c' & -> & _).
  - apply NoDup_elements.
  - intros pdf Hin. apply Hsub. by apply elem_of_elements.
  - simpl. eauto.
Qed.

Lemma pdf_check_deleted_raises (deleted_pdfs : gset string)
    (word_map : TokenMap) (cache : Cache) :
  (∃ pdf, pdf ∈ deleted_pdfs ∧ pdf ∉ dom cache) →
  ∃ k, k ∈ deleted_pdfs ∧ (k ∉ dom cache) ∧
       pdf_check_deleted deleted_pdfs word_map cache = Raise (KeyError k).
Proof.
  intros (pdf & Hin & Hout). unfold pdf_check_deleted.
  rewrite decide_False by set_solver.
  destruct (del_all_key_error (elements deleted_pdfs) cache) as (k & Hk & Hn & ->).
  - apply NoDup_elements.
  - exists pdf. split; [by apply elem_of_elements|]. by apply not_elem_of_dom.
  - exists k. split; [by apply elem_of_elements|]. split; [|done].
    by apply not_elem_of_dom.
Qed.

(** ** The run *)

Lemma build_word_map_with_cache_unfold (w : World) (d : Disk) :
  build_word_map_with_cache w d =
  match checkpoint_update w d with
  | Raise e => (d, Raise e)
  | Ok (word_map, cache) =>
      if output_writable w then
        if cache_writable w then
          ({| word_map_json := Content (to_json word_map);
              scan_cache_json := Content cache |}, Ok true)
        else if cache_truncated w then
          ({| word_map_json := Content (to_json word_map);
              scan_cache_json := Corrupt |},
           Raise (OSError CACHE_FILE))
        else
          ({| word_map_json := Content (to_json word_map);
              scan_cache_json := scan_cache_json d |},
           Raise (PermissionError CACHE_FILE))
      else if output_truncated w then
        ({| word_map_json := Corrupt; scan_cache_json := scan_cache_json d |},
         Raise (OSError OUTPUT_JSON))
      else (d, Raise (PermissionError OUTPUT_JSON))
  end.
Proof.
  unfold build_word_map_with_cache, checkpoint_update, mbind, io_bind, lift,
    load_cache, output_exists, load_existing_word_map_json,
    save_word_map_json, save_cache, mret, io_ret.
  destruct d as [index_file cache_file].
  destruct (os_listdir w) as [e|names]; simpl; [done|].
  destruct cache_file as [| |cache0]; simpl; [|done|];
    (destruct index_file as [| |data]; simpl; [|done|]);
    match goal with
    | |- context [full_index ?a ?b ?c] =>
        destruct (full_index a b c) as [e|[wm c']]
    | |- context [incremental ?a ?b ?c ?c0] =>
        destruct (incremental a b c c0) as [e|[wm c']]
    end; simpl; try done;
    by destruct (output_writable w), (cache_writable w),
         (output_truncated w), (cache_truncated w).
Qed.

Lemma record_mtimes_raises (w : World) (pdfs : list string) :
  ∀ (cache : Cache) e,
    record_mtimes w pdfs cache = Raise e → ¬ is_write_error e.
Proof.
  induction pdfs as [|pdf rest IHr]; intros cache e; simpl; [done|].
  unfold getmtime. destruct (mtime w pdf); simpl; [apply IHr|].
  intros [= <-] [].
Qed.

Lemma scan_modified_raises (w : World) (cache : Cache)
    (pdfs : list string) :
  ∀ (acc : gset string) e,
    scan_modified w cache pdfs acc = Raise e → ¬ is_write_error e.
Proof.
  induction pdfs as [|pdf rest IHr]; intros acc e; simpl; [done|].
  unfold getmtime. destruct (mtime w pdf); simpl; [apply IHr|].
  intros [= <-] [].
Qed.

Lemma del_all_raises (pdfs : list string) :
  ∀ (cache : Cache) e,
    del_all pdfs cache = Raise e → ¬ is_write_error e.
Proof.
  induction pdfs as [|pdf rest IHr]; intros cache e; simpl; [done|].
  destruct (cache !! pdf); [apply IHr|]. intros [= <-] [].
Qed.

Lemma pdf_check_add_raises (w : World) (new_pdfs : gset string)
    (word_map : TokenMap) (cache : Cache) e :
  pdf_check_add w new_pdfs word_map cache = Raise e → ¬ is_write_error e.
Proof.
  unfold pdf_check_add. case_decide; [done|].
  destruct (record_mtimes w (elements new_pdfs) cache) eqn:Hrec; simpl; [|done].
  intros [= <-]. by eapply record_mtimes_raises.
Qed.

Lemma pdf_check_deleted_raises_only (deleted_pdfs : gset string)
    (word_map : TokenMap) (cache : Cache) e :
  pdf_check_deleted deleted_pdfs word_map cache = Raise e → ¬ is_write_error e.
Proof.
  unfold pdf_check_deleted. case_decide; [done|].
  destruct (del_all (elements deleted_pdfs) cache) eqn:Hdel; simpl; [|done].
  intros [= <-]. by eapply del_all_raises.
Qed.

Lemma incremental_raises (w : World) (all_pdfs : list string)
    (word_map : TokenMap) (cache : Cache) e :
  incremental w all_pdfs word_map cache = Raise e → ¬ is_write_error e.
Proof.
  unfold incremental.
  set (first_pass := if decide (_ > 0) then _ else _).
  destruct first_pass as [e1|[wm1 c1]] eqn:H1; simpl.
  { intros [= <-]. subst first_pass. revert H1.
    repeat case_decide; [apply pdf_check_add_raises
                        |apply pdf_check_deleted_raises_only|done]. }
  destruct (scan_modified w c1 all_pdfs ∅) as [e2|M] eqn:H2; simpl.
  { intros [= <-]. by eapply scan_modified_raises. }
  case_decide; [done|].
  destruct (pdf_check_deleted M wm1 c1) as [e3|[wm3 c3]] eqn:H3; simpl.
  { intros [= <-]. by eapply pdf_check_deleted_raises_only. }
  apply pdf_check_add_raises.
Qed.

Lemma checkpoint_update_raises (w : World) (d : Disk) e :
  checkpoint_update w d = Raise e → ¬ is_write_error e.
Proof.
  unfold checkpoint_update, os_listdir, load_cache, load_existing_word_map_json.
  destruct (listdir w); simpl; [|by intros [= <-] []].
  destruct (scan_cache_json d); simpl; try (by intros [= <-] []);
    destruct (word_map_json d); simpl; try (by intros [= <-] []);
    first [apply incremental_raises | idtac].
  all: unfold full_index;
    match goal with
    | |- context [record_mtimes ?a ?b ?c] =>
        destruct (record_mtimes a b c) eqn:Hrec
    end; simpl; [|done]; intros [= <-]; by eapply record_mtimes_raises.
Qed.

(** C4 (as amended).  A run that ends in an exception raised before the
    two saves of lines 161-162, or in the failure to open [word_map.json]
    for writing, leaves both checkpoint files as they were.  A failure later
    in the saves does not: when [json.dump] fails on [word_map.json] the
    index file is left truncated and the cache file unchanged; when
    [save_cache] fails, [word_map.json] already holds the updated index,
    and the cache file is unchanged if [open] failed, truncated if
    [json.dump] failed. *)
Theorem failed_run_checkpoint (w : World) (d d' : Disk) (e : exn) :
  build_word_map_with_cache w d = (d', Raise e) →
  (e ≠ OSError OUTPUT_JSON → e ≠ PermissionError CACHE_FILE →
   e ≠ OSError CACHE_FILE → d' = d)
  ∧ (e = OSError OUTPUT_JSON →
     word_map_json d' = Corrupt ∧ scan_cache_json d' = scan_cache_json d)
  ∧ (e = PermissionError CACHE_FILE ∨ e = OSError CACHE_FILE →
     (∃ word_map cache,
        checkpoint_update w d = Ok (word_map, cache) ∧
        word_map_json d' = Content (to_json word_map))
     ∧ (e = PermissionError CACHE_FILE →
        scan_cache_json d' = scan_cache_json d)
     ∧ (e = OSError CACHE_FILE → scan_cache_json d' = Corrupt)).
Proof.
  rewrite build_word_map_with_cache_unfold.
  destruct (checkpoint_update w d) as [e0|[wm c]] eqn:Hup.
  - intros [= <- <-]. pose proof (checkpoint_update_raises _ _ _ Hup) as Hne.
    split; [done|]. split; [intros ->; by destruct Hne|].
    intros [->| ->]; by destruct Hne.
  - destruct (output_writable w).
    + destruct (cache_writable w); [done|].
      destruct (cache_truncated w); intros [= <- <-]; simpl.
      * split; [done|]. split; [done|]. intros _.
        split; [eauto|]. split; [done|done].
      * split; [done|]. split; [done|]. intros _.
        split; [eauto|]. split; [done|done].
    + destruct (output_truncated w); intros [= <- <-]; simpl.
      * split; [done|]. split; [done|]. intros [[=]|[=]].
      * split; [done|]. split; [done|]. intros [[=]|[=]].
Qed.

(** ** The invariant of the persisted index *)

Lemma record_mtimes_stat (w : World) (pdfs : list string) :
  ∀ cache cache' : Cache,
    record_mtimes w pdfs cache = Ok cache' →
    ∀ pdf, pdf ∈ pdfs → is_Some (mtime w pdf).
Proof.
  induction pdfs as [|pdf rest IHr]; intros cache cache' Hrec k Hk;
    simpl in Hrec; [by apply elem_of_nil in Hk|].
  unfold getmtime in Hrec. destruct (mtime w pdf) as [t|] eqn:Ht; [|done].
  apply elem_of_cons in Hk as [->|Hk]; [by rewrite Ht|]. eauto.
Qed.

Lemma no_empty_entry_to_json (word_map : TokenMap) :
  no_empty_entry (to_json word_map).
Proof.
  intros token pdf_map. unfold to_json. rewrite lookup_fmap.
  destruct (structured word_map !! token) as [pm|] eqn:Hpm; [|done].
  intros [= <-]. destruct (proj1 (structured_spec word_map) _ _ Hpm) as [Hne Hpg].
  split.
  - intros Hempty. apply Hne. by apply fmap_empty_inv in Hempty.
  - intros file pages. rewrite lookup_fmap.
    destruct (pm !! file) as [s|] eqn:Hs; [|done]. intros [= <-] Hnil.
    apply (Hpg _ _ Hs). apply set_eq. intros x.
    rewrite <-elem_of_sorted, Hnil. set_solver.
Qed.

Lemma full_index_inv (w : World) (all_pdfs : list string)
    (cache cache' : Cache)
    (word_map : TokenMap) :
  full_index w all_pdfs cache = Ok (word_map, cache') →
  word_map = merge_token_maps
               (as_completed w (extract_tokens_from_pdf w <$> all_pdfs))
  ∧ (∀ k, cache' !! k = if decide (k ∈ all_pdfs)
                        then Build_CacheEntry <$> mtime w k else cache !! k)
  ∧ ∀ pdf, pdf ∈ all_pdfs → is_Some (mtime w pdf).
Proof.
  unfold full_index.
  destruct (record_mtimes w all_pdfs cache) as [e|c] eqn:Hrec; [done|].
  simpl. intros [= <- <-]. split; [done|]. split.
  - by apply record_mtimes_inv.
  - by eapply record_mtimes_stat.
Qed.

Lemma full_index_consistent (w : World) (all_pdfs : list string)
    (cache cache' : Cache)
    (word_map : TokenMap) :
  yields_all w →
  full_index w all_pdfs cache = Ok (word_map, cache') →
  consistent word_map cache'.
Proof.
  intros Hw (-> & Hc & Hstat)%full_index_inv t f p.
  rewrite occurs_extract_all by done.
  intros (pdf & Hin & ->%occurs_extract_name).
  rewrite Hc, decide_True by done.
  destruct (Hstat _ Hin) as [x ->]. by eexists.
Qed.

Lemma pdf_check_add_stat (w : World) (new_pdfs : gset string)
    (word_map word_map' : TokenMap)
    (cache cache' : Cache) :
  pdf_check_add w new_pdfs word_map cache = Ok (word_map', cache') →
  ∀ pdf, pdf ∈ new_pdfs → is_Some (mtime w pdf).
Proof.
  unfold pdf_check_add. case_decide as Hempty; [set_solver|].
  destruct (record_mtimes w (elements new_pdfs) cache) as [e|c] eqn:Hrec; [done|].
  intros _ pdf Hin. eapply record_mtimes_stat; [done|].
  by apply elem_of_elements.
Qed.

Lemma pdf_check_add_consistent (w : World) (new_pdfs : gset string)
    (word_map word_map' : TokenMap)
    (cache cache' : Cache) :
  yields_all w →
  consistent word_map cache →
  pdf_check_add w new_pdfs word_map cache = Ok (word_map', cache') →
  consistent word_map' cache'.
Proof.
  intros Hw Hcons Hadd t f p.
  destruct (pdf_check_add_inv _ _ _ _ _ _ Hw Hadd) as [Hocc Hc].
  rewrite Hocc, Hc. intros [Ho|(pdf & Hin & ->%occurs_extract_name)].
  - case_decide as Hf; [|by eapply Hcons].
    destruct (pdf_check_add_stat _ _ _ _ _ _ Hadd _ Hf) as [x ->]. by eexists.
  - rewrite decide_True by done.
    destruct (pdf_check_add_stat _ _ _ _ _ _ Hadd _ Hin) as [x ->]. by eexists.
Qed.

Lemma pdf_check_deleted_consistent (deleted_pdfs : gset string)
    (word_map word_map' : TokenMap)
    (cache cache' : Cache) :
  consistent word_map cache →
  pdf_check_deleted deleted_pdfs word_map cache = Ok (word_map', cache') →
  consistent word_map' cache'.
Proof.
  intros Hcons (Hocc & Hc & _)%pdf_check_deleted_inv t f p.
  rewrite Hocc, Hc. intros [Ho Hf]. rewrite decide_False by done.
  by eapply Hcons.
Qed.

Lemma incremental_consistent (w : World) (all_pdfs : list string)
    (word_map word_map' : TokenMap)
    (cache cache' : Cache) :
  yields_all w →
  consistent word_map cache →
  incremental w all_pdfs word_map cache = Ok (word_map', cache') →
  consistent word_map' cache'.
Proof.
  intros Hw Hcons. unfold incremental.
  set (first_pass := if decide (_ > 0) then _ else _).
  destruct first_pass as [e1|[wm1 c1]] eqn:H1; simpl; [done|].
  assert (consistent wm1 c1) as Hcons1.
  { subst first_pass. revert H1. repeat case_decide.
    - by apply pdf_check_add_consistent.
    - by apply pdf_check_deleted_consistent.
    - by intros [= <- <-]. }
  destruct (scan_modified w c1 all_pdfs ∅) as [e2|M]; simpl; [done|].
  case_decide; [by intros [= <- <-]|].
  destruct (pdf_check_deleted M wm1 c1) as [e3|[wm3 c3]] eqn:H3; simpl; [done|].
  apply pdf_check_add_consistent; [done|].
  by eapply pdf_check_deleted_consistent.
Qed.

Lemma checkpoint_update_consistent (w : World) (d : Disk)
    (word_map : TokenMap) (cache : Cache) :
  yields_all w →
  checkpoint_consistent d →
  checkpoint_update w d = Ok (word_map, cache) →
  consistent word_map cache.
Proof.
  intros Hw Hd. unfold checkpoint_update, load_cache, load_existing_word_map_json.
  destruct (os_listdir w) as [e|names]; simpl; [done|].
  destruct (scan_cache_json d) as [| |cache0] eqn:Hcf; simpl; [|done|];
    (destruct (word_map_json d) as [| |data] eqn:Hif; simpl;
       [by apply full_index_consistent|done|]);
    apply incremental_consistent; try done;
    intros t f p Ho%occurs_from_json;
    destruct (Hd _ _ _ _ Hif Ho) as (c & Hc & Hsome);
    rewrite Hcf in Hc; by simplify_eq.
Qed.

(** C2 (as amended).  A run that completes persists an index in which no
    token has an empty dict and no document an empty page list.  When the
    run started from a checkpoint whose index only names documents of its
    cache (in particular from no index at all), every (document, page)
    pair of the persisted index names a key of the persisted cache. *)
Theorem persisted_index_invariant (w : World) (d d' : Disk) (b : bool) :
  build_word_map_with_cache w d = (d', Ok b) →
  ∃ data cache,
    word_map_json d' = Content data ∧ scan_cache_json d' = Content cache ∧
    no_empty_entry data ∧
    (yields_all w → checkpoint_consistent d → no_dangling data cache).
Proof.
  rewrite build_word_map_with_cache_unfold.
  destruct (checkpoint_update w d) as [e|[wm c]] eqn:Hup; [done|].
  destruct (output_writable w); [|by destruct (output_truncated w)].
  destruct (cache_writable w); [|by destruct (cache_truncated w)].
  intros [= <- <-]. exists (to_json wm), c. simpl.
  split; [done|]. split; [done|]. split; [apply no_empty_entry_to_json|].
  intros Hw Hd t f p Hl%listed_to_json.
  by eapply checkpoint_update_consistent.
Qed.

(** ** Cold start *)

(** C6.  With no [word_map.json], a run that meets no I/O failure extracts
    every listed PDF whatever the cache says, persists the merge of the
    extracted token maps as the index, and records the modification time of
    every listed PDF in the persisted cache. *)
Theorem cold_start_full_index (w : World) (d : Disk)
    (names all_pdfs : list string) :
  yields_all w →
  word_map_json d = Absent →
  scan_cache_json d ≠ Corrupt →
  listdir w = Some names →
  all_pdfs = filter (λ f, is_pdf f = true) names →
  (∀ pdf, pdf ∈ all_pdfs → is_Some (mtime w pdf)) →
  output_writable w = true →
  cache_writable w = true →
  ∃ cache',
    build_word_map_with_cache w d =
      ({| word_map_json :=
            Content (to_json (merge_token_maps
                                (extract_tokens_from_pdf w <$> all_pdfs)));
          scan_cache_json := Content cache' |}, Ok true)
    ∧ (∀ pdf, pdf ∈ all_pdfs → modified <$> cache' !! pdf = mtime w pdf)
    ∧ ∀ t f p,
        listed (to_json (merge_token_maps
                           (extract_tokens_from_pdf w <$> all_pdfs))) t f p ↔
        ∃ pdf, pdf ∈ all_pdfs ∧ occurs (extract_tokens_from_pdf w pdf) t f p.
Proof.
  intros Hw Hif Hcf Hls -> Hstat How Hcw.
  rewrite build_word_map_with_cache_unfold.
  unfold checkpoint_update, os_listdir, load_cache. rewrite Hls, Hif, How, Hcw.
  simpl.
  assert (∃ cache0 : Cache,
            (match scan_cache_json d with
             | Absent => Ok ∅
             | Corrupt => Raise (JSONDecodeError CACHE_FILE)
             | Content cache => Ok cache
             end) = Ok cache0) as [cache0 ->].
  { destruct (scan_cache_json d); [eauto|done|eauto]. }
  simpl.
  destruct (record_mtimes_total w (filter (λ f, is_pdf f = true) names) cache0 Hstat)
    as [cache' Hrec].
  unfold full_index. rewrite Hrec. simpl. exists cache'. split; [|split].
  - unfold merge_token_maps. by rewrite (merge_from_permutation _ _ (Hw _)).
  - intros pdf Hin. rewrite (record_mtimes_inv _ _ _ _ Hrec), decide_True by done.
    by destruct (mtime w pdf).
  - intros t f p. rewrite listed_to_json, occurs_merge_token_maps.
    setoid_rewrite list_elem_of_fmap. naive_solver.
Qed.

(** ** A failing extraction *)

Lemma read_pages_short (doc : list PageData) :
  existsb (λ p, bool_decide (page_tokens p = None)) doc = true →
  (List.length (read_pages doc) < List.length doc)%nat.
Proof.
  induction doc as [|pg rest IHd]; simpl; [done|].
  destruct (page_tokens pg) as [tokens|]; simpl; [|lia].
  intros Hrest. specialize (IHd Hrest). lia.
Qed.

(** C3 (as amended).  In a batch whose time stamps can all be read, a
    document whose extraction raises does not abort the batch: the pass
    returns, the index gains the occurrences extracted from every document
    of the batch, the failing document contributes the tokens of the pages
    read before the exception (nothing when [fitz.open] or its first page
    raises), its modification time is recorded in the cache, and a later
    scan that finds the same time stamp does not select it again. *)
Theorem extraction_failure_isolated (w : World) (new_pdfs : gset string)
    (word_map : TokenMap) (cache : Cache)
    (bad : string) :
  yields_all w →
  bad ∈ new_pdfs →
  extraction_fails w bad = true →
  (∀ pdf, pdf ∈ new_pdfs → is_Some (mtime w pdf)) →
  ∃ word_map' cache',
    pdf_check_add w new_pdfs word_map cache = Ok (word_map', cache')
    ∧ (∀ t f p, occurs word_map' t f p ↔
         occurs word_map t f p ∨
         ∃ pdf, pdf ∈ new_pdfs ∧ occurs (extract_tokens_from_pdf w pdf) t f p)
    ∧ (∀ t f p, occurs (extract_tokens_from_pdf w bad) t f p ↔
         f = bad ∧ ∃ doc (i : nat) tokens,
           fitz_open w bad = Some doc ∧ read_pages doc !! i = Some tokens ∧
           t ∈ tokens ∧ p = Z.of_nat i + 1)
    ∧ (fitz_open w bad = None ∨
       (∃ pg rest, fitz_open w bad = Some (pg :: rest) ∧ page_tokens pg = None) →
       extract_tokens_from_pdf w bad = ∅)
    ∧ (∀ doc, fitz_open w bad = Some doc →
         (List.length (read_pages doc) < List.length doc)%nat)
    ∧ modified <$> cache' !! bad = mtime w bad
    ∧ ∀ (w' : World) all_pdfs modified_pdfs,
        mtime w' bad = mtime w bad →
        scan_modified w' cache' all_pdfs ∅ = Ok modified_pdfs →
        bad ∉ modified_pdfs.
Proof.
  intros Hw Hbad Hfails Hstat.
  destruct (pdf_check_add_total w new_pdfs word_map cache Hstat) as [[wm' c'] Hadd].
  destruct (pdf_check_add_inv _ _ _ _ _ _ Hw Hadd) as [Hocc Hc].
  assert (modified <$> c' !! bad = mtime w bad) as Hrecorded.
  { rewrite Hc, decide_True by done. by destruct (mtime w bad). }
  exists wm', c'. split; [done|]. split; [done|].
  split; [apply occurs_extract|]. split; [|split; [|split; [done|]]].
  - unfold extract_tokens_from_pdf.
    intros [->|(pg & rest & -> & Hpg)]; [done|]. simpl. by rewrite Hpg.
  - intros doc Hdoc. unfold extraction_fails in Hfails. rewrite Hdoc in Hfails.
    by apply read_pages_short.
  - intros w' all_pdfs M Hsame Hscan Hin.
    apply (scan_modified_inv _ _ _ _ _ Hscan) in Hin as [Hin|[_ Hne]];
      [set_solver|]. congruence.
Qed.

(** ** The [KeyError] of [pdf_check_deleted] *)

Lemma scan_modified_listed (w : World) (cache : Cache) (pdfs : list string) :
  ∀ (acc modified_pdfs : gset string),
    scan_modified w cache pdfs acc = Ok modified_pdfs →
    ∀ pdf, pdf ∈ pdfs → is_Some (mtime w pdf).
Proof.
  induction pdfs as [|x rest IHr]; intros acc M Hscan pdf Hin;
    [by apply elem_of_nil in Hin|].
  simpl in Hscan. unfold getmtime in Hscan.
  destruct (mtime w x) as [t|] eqn:Ht; [|done]. simpl in Hscan.
  apply elem_of_cons in Hin as [->|Hin]; [by rewrite Ht|]. eauto.
Qed.

Lemma scan_modified_uncached (w : World) (cache : Cache) (all_pdfs : list string)
    (modified_pdfs : gset string) (pdf : string) :
  scan_modified w cache all_pdfs ∅ = Ok modified_pdfs →
  pdf ∈ all_pdfs → cache !! pdf = None → pdf ∈ modified_pdfs.
Proof.
  intros Hscan Hin Hnone.
  apply (scan_modified_inv _ _ _ _ _ Hscan). right. split; [done|].
  rewrite Hnone. simpl.
  by destruct (scan_modified_listed _ _ _ _ _ Hscan _ Hin) as [t ->].
Qed.

(** A listed document that is not in the cache, in a folder that has no
    more PDFs than the cache has keys, makes lines 141-157 raise. *)
Lemma incremental_key_error (w : World) (all_pdfs : list string)
    (word_map : TokenMap) (cache : Cache) (pdf : string) :
  pdf ∈ all_pdfs → cache !! pdf = None →
  (size (list_to_set all_pdfs : gset string) ≤ size (dom cache))%nat →
  (∀ x, x ∈ all_pdfs → is_Some (mtime w x)) →
  ∃ k, k ∈ all_pdfs ∧ cache !! k = None ∧
       incremental w all_pdfs word_map cache = Raise (KeyError k).
Proof.
  intros Hin Hnone Hsize Hstat. unfold incremental.
  set (first_pass := if decide (_ > 0) then _ else _).
  assert (∃ wm1 c1, first_pass = Ok (wm1, c1) ∧
            ∀ k, k ∈ all_pdfs → c1 !! k = cache !! k) as (wm1 & c1 & -> & Hc1).
  { subst first_pass. rewrite decide_False by lia. case_decide; [|eauto].
    destruct (pdf_check_deleted_total (dom cache ∖ list_to_set all_pdfs)
                word_map cache) as [[wm1 c1] Hdel].
    { intros k [Hk _]%elem_of_difference. by apply elem_of_dom. }
    exists wm1, c1. split; [done|]. intros k Hk.
    destruct (pdf_check_deleted_inv _ _ _ _ _ Hdel) as (_ & -> & _).
    rewrite decide_False; [done|]. set_solver. }
  simpl.
  destruct (scan_modified_total w c1 all_pdfs ∅ Hstat) as [M HM]. rewrite HM.
  simpl.
  assert (pdf ∈ M) as HpM.
  { eapply scan_modified_uncached; [done..|]. by rewrite Hc1. }
  rewrite decide_False by set_solver.
  destruct (pdf_check_deleted_raises M wm1 c1) as (k & HkM & Hk & ->).
  { exists pdf. split; [done|]. apply not_elem_of_dom. by rewrite Hc1. }
  simpl. exists k.
  assert (k ∈ all_pdfs) as Hkall.
  { apply (scan_modified_inv _ _ _ _ _ HM) in HkM as [?|[? _]]; [set_solver|done]. }
  split; [done|]. split; [|done].
  rewrite <-Hc1 by done. by apply not_elem_of_dom.
Qed.

(** C10.  [pdf_check_deleted] deletes every name of [deleted_pdfs] from the
    cache without a test: with a name that is not a key of the cache it
    raises [KeyError]; when every name is a key it returns; the scan of
    lines 148-153 selects every listed document that is absent from the
    cache, so the call of line 156 raises; and a run over a folder that
    lists such a document and has no more PDFs than the cache has keys
    ends in that [KeyError], the checkpoint left as it was. *)
Theorem pdf_check_deleted_key_error :
  (∀ (deleted_pdfs : gset string) (word_map : TokenMap) (cache : Cache),
     (∃ pdf, pdf ∈ deleted_pdfs ∧ pdf ∉ dom cache) →
     ∃ k, k ∈ deleted_pdfs ∧ (k ∉ dom cache) ∧
          pdf_check_deleted deleted_pdfs word_map cache = Raise (KeyError k))
  ∧ (∀ (deleted_pdfs : gset string) (word_map : TokenMap) (cache : Cache),
       deleted_pdfs ⊆ dom cache →
       ∃ r, pdf_check_deleted deleted_pdfs word_map cache = Ok r)
  ∧ (∀ (w : World) (cache : Cache) (all_pdfs : list string)
       (modified_pdfs : gset string) (word_map : TokenMap) (pdf : string),
       scan_modified w cache all_pdfs ∅ = Ok modified_pdfs →
       pdf ∈ all_pdfs → pdf ∉ dom cache →
       pdf ∈ modified_pdfs ∧
       ∃ k, k ∈ modified_pdfs ∧ (k ∉ dom cache) ∧
            pdf_check_deleted modified_pdfs word_map cache = Raise (KeyError k))
  ∧ (∀ (w : World) (d : Disk) (names : list string) (data : IndexJSON)
       (cache : Cache) (pdf : string),
       listdir w = Some names →
       word_map_json d = Content data →
       scan_cache_json d = Content cache →
       pdf ∈ names → is_pdf pdf = true → pdf ∉ dom cache →
       (size (list_to_set (filter (λ f, is_pdf f = true) names) : gset string)
        ≤ size (dom cache))%nat →
       (∀ x, x ∈ names → is_Some (mtime w x)) →
       ∃ k, (k ∉ dom cache) ∧
            build_word_map_with_cache w d = (d, Raise (KeyError k))).
Proof.
  split; [|split; [|split]].
  - apply pdf_check_deleted_raises.
  - intros deleted_pdfs word_map cache Hsub.
    apply pdf_check_deleted_total. intros k Hk. apply elem_of_dom. set_solver.
  - intros w cache all_pdfs M word_map pdf Hscan Hin Hout.
    assert (pdf ∈ M) as HM.
    { eapply scan_modified_uncached; [done..|]. by apply not_elem_of_dom. }
    split; [done|]. apply pdf_check_deleted_raises. eauto.
  - intros w d names data cache pdf Hls Hif Hcf Hin Hpdf Hout Hsize Hstat.
    destruct (incremental_key_error w (filter (λ f, is_pdf f = true) names)
                (from_json data) cache pdf) as (k & _ & Hk & Hinc).
    + by apply list_elem_of_filter.
    + by apply not_elem_of_dom.
    + done.
    + intros x [_ Hx]%list_elem_of_filter. by apply Hstat.
    + exists k. split; [by apply not_elem_of_dom|].
      rewrite build_word_map_with_cache_unfold.
      unfold checkpoint_update, os_listdir, load_cache,
        load_existing_word_map_json.
      rewrite Hls, Hcf, Hif. simpl. by rewrite Hinc.
Qed.

(** ** Runs on the concrete folders *)

Lemma sample_world_yields_all names cache_ok :
  yields_all (sample_world names cache_ok).
Proof. intros l. apply reverse_Permutation. Qed.

Lemma checkpoint_AB_reached :
  build_word_map_with_cache (sample_world ["A.pdf"; "B.pdf"] true) no_checkpoint
  = (checkpoint_AB, Ok true).
Proof. vm_compute. reflexivity. Qed.

(** ** Additions together with removals *)

(** C1.  From the checkpoint of [A.pdf, B.pdf]:
    - with [B.pdf] replaced by [C.pdf] the counts are equal, neither pass
      of lines 143-146 runs, the scan selects [C.pdf] and line 156 raises
      [KeyError]: nothing is added, nothing purged, nothing saved;
    - with [B.pdf] removed and [C.pdf], [D.pdf] added only the add pass
      runs: [B.pdf] stays in the persisted index and cache;
    - with [A.pdf], [B.pdf] removed and [C.pdf] added only the delete pass
      runs, then [C.pdf] makes line 156 raise. *)
Theorem additions_with_removals :
  build_word_map_with_cache (sample_world ["A.pdf"; "C.pdf"] true) checkpoint_AB
    = (checkpoint_AB, Raise (KeyError "C.pdf"))
  ∧ build_word_map_with_cache
      (sample_world ["A.pdf"; "C.pdf"; "D.pdf"] true) checkpoint_AB
    = (checkpoint_ABCD, Ok true)
  ∧ listed
      (match word_map_json checkpoint_ABCD with Content data => data | _ => ∅ end)
      "y" "B.pdf" 1
  ∧ build_word_map_with_cache (sample_world ["C.pdf"] true) checkpoint_AB
    = (checkpoint_AB, Raise (KeyError "C.pdf")).
Proof.
  split; [vm_compute; reflexivity|]. split; [vm_compute; reflexivity|].
  split; [|vm_compute; reflexivity].
  exists {[ "A.pdf" := [1]; "B.pdf" := [1] ]}, [1]. split; [done|].
  split; [done|]. by left.
Qed.

(** ** Two runs in a row *)

(** C5.  The run that takes [checkpoint_AB] to [checkpoint_ABCD] leaves
    [B.pdf], which is no longer in the folder, in both files; a second run
    on the same folder then purges it, so the files it persists differ from
    those of the first. *)
Theorem second_run_differs :
  build_word_map_with_cache
      (sample_world ["A.pdf"; "C.pdf"; "D.pdf"] true) checkpoint_AB
    = (checkpoint_ABCD, Ok true)
  ∧ build_word_map_with_cache
      (sample_world ["A.pdf"; "C.pdf"; "D.pdf"] true) checkpoint_ABCD
    = (checkpoint_ACD, Ok true)
  ∧ word_map_json checkpoint_ACD ≠ word_map_json checkpoint_ABCD
  ∧ scan_cache_json checkpoint_ACD ≠ scan_cache_json checkpoint_ABCD.
Proof.
  split; [vm_compute; reflexivity|]. split; [vm_compute; reflexivity|].
  split; vm_compute; discriminate.
Qed.

(** ** Instances *)

Lemma merge_token_maps_permutation_witness :
  [extract_tokens_from_pdf (sample_world [] true) "A.pdf";
   extract_tokens_from_pdf (sample_world [] true) "B.pdf"]
  ≡ₚ [extract_tokens_from_pdf (sample_world [] true) "B.pdf";
      extract_tokens_from_pdf (sample_world [] true) "A.pdf"]
  ∧ merge_token_maps [extract_tokens_from_pdf (sample_world [] true) "A.pdf";
                      extract_tokens_from_pdf (sample_world [] true) "B.pdf"]
    = merge_token_maps [extract_tokens_from_pdf (sample_world [] true) "B.pdf";
                        extract_tokens_from_pdf (sample_world [] true) "A.pdf"].
Proof.
  split; [apply perm_swap|].
  apply merge_token_maps_permutation, perm_swap.
Defined.

Lemma update_all_union_semantics_witness :
  update_all {[ "y" := {[ ("B.pdf", 1) ]} ]}
    (update_all {[ "y" := {[ ("B.pdf", 1) ]} ]} {[ "y" := {[ ("A.pdf", 1) ]} ]})
  = update_all {[ "y" := {[ ("B.pdf", 1) ]} ]} {[ "y" := {[ ("A.pdf", 1) ]} ]}
  ∧ update_all {[ "y" := {[ ("B.pdf", 1) ]} ]}
      {[ "y" := {[ ("A.pdf", 1); ("B.pdf", 1) ]} ]}
    = {[ "y" := {[ ("A.pdf", 1); ("B.pdf", 1) ]} ]}.
Proof.
  split.
  - apply (update_all_union_semantics {[ "y" := {[ ("A.pdf", 1) ]} ]}).
  - apply (update_all_union_semantics
             {[ "y" := {[ ("A.pdf", 1); ("B.pdf", 1) ]} ]}).
    intros token locs Hl.
    destruct (decide (token = "y")) as [->|Hne].
    + rewrite lookup_singleton_eq in Hl. injection Hl as <-.
      eexists. split; [apply lookup_singleton_eq|]. set_solver.
    + by rewrite lookup_singleton_ne in Hl.
Defined.

Lemma saved_pages_sorted_distinct_witness :
  StronglySorted Z.lt [1; 3] ∧ NoDup [1; 3] ∧
  ∀ page, page ∈ [1; 3] ↔
          occurs {[ "x" := {[ ("A.pdf", 3); ("A.pdf", 1); ("B.pdf", 2) ]} ]}
                 "x" "A.pdf" page.
Proof.
  apply (saved_pages_sorted_distinct
           (sample_world [] true)
           {[ "x" := {[ ("A.pdf", 3); ("A.pdf", 1); ("B.pdf", 2) ]} ]}
           no_checkpoint
           {| word_map_json :=
                Content {[ "x" := {[ "A.pdf" := [1; 3]; "B.pdf" := [2] ]} ]};
              scan_cache_json := Absent |}
           {[ "x" := {[ "A.pdf" := [1; 3]; "B.pdf" := [2] ]} ]}
           "x" "A.pdf" {[ "A.pdf" := [1; 3]; "B.pdf" := [2] ]} [1; 3]).
  - vm_compute. reflexivity.
  - reflexivity.
  - vm_compute. reflexivity.
  - vm_compute. reflexivity.
Defined.

Lemma pdf_check_deleted_key_error_witness :
  (∃ k, k ∈ ({[ "C.pdf" ]} : gset string) ∧
        (k ∉ dom ({[ "A.pdf" := stamp; "B.pdf" := stamp ]} : Cache)) ∧
        pdf_check_deleted {[ "C.pdf" ]} ∅ {[ "A.pdf" := stamp; "B.pdf" := stamp ]}
        = Raise (KeyError k))
  ∧ (∃ r, pdf_check_deleted {[ "B.pdf" ]} ∅ {[ "A.pdf" := stamp; "B.pdf" := stamp ]}
          = Ok r)
  ∧ ("C.pdf" ∈ ({[ "C.pdf" ]} : gset string) ∧
     ∃ k, k ∈ ({[ "C.pdf" ]} : gset string) ∧
          (k ∉ dom ({[ "A.pdf" := stamp; "B.pdf" := stamp ]} : Cache)) ∧
          pdf_check_deleted {[ "C.pdf" ]} (from_json index_AB)
            {[ "A.pdf" := stamp; "B.pdf" := stamp ]}
          = Raise (KeyError k))
  ∧ (∃ k, (k ∉ dom ({[ "A.pdf" := stamp; "B.pdf" := stamp ]} : Cache)) ∧
          build_word_map_with_cache (sample_world ["A.pdf"; "C.pdf"] true)
            checkpoint_AB = (checkpoint_AB, Raise (KeyError k))).
Proof.
  split; [|split; [|split]].
  - apply (proj1 pdf_check_deleted_key_error).
    exists "C.pdf". split; [set_solver|].
    apply not_elem_of_dom. vm_compute. reflexivity.
  - apply (proj1 (proj2 pdf_check_deleted_key_error)).
    intros k ->%elem_of_singleton. apply elem_of_dom. vm_compute. eauto.
  - apply (proj1 (proj2 (proj2 pdf_check_deleted_key_error))
             (sample_world ["A.pdf"; "C.pdf"] true)
             {[ "A.pdf" := stamp; "B.pdf" := stamp ]} ["A.pdf"; "C.pdf"]).
    + vm_compute. reflexivity.
    + set_solver.
    + apply not_elem_of_dom. vm_compute. reflexivity.
  - apply (proj2 (proj2 (proj2 pdf_check_deleted_key_error))
             (sample_world ["A.pdf"; "C.pdf"] true) checkpoint_AB
             ["A.pdf"; "C.pdf"] index_AB
             {[ "A.pdf" := stamp; "B.pdf" := stamp ]} "C.pdf").
    + reflexivity.
    + reflexivity.
    + reflexivity.
    + set_solver.
    + vm_compute. reflexivity.
    + apply not_elem_of_dom. vm_compute. reflexivity.
    + vm_compute. lia.
    + intros x [->|[->|[]%elem_of_nil]%elem_of_cons]%elem_of_cons;
        vm_compute; eauto.
Defined.

Lemma cold_start_full_index_witness :
  ∃ cache',
    build_word_map_with_cache
      (sample_world ["A.pdf"; "notes.txt"; "B.PDF"] true) no_checkpoint =
      ({| word_map_json :=
            Content (to_json (merge_token_maps
                       (extract_tokens_from_pdf
                          (sample_world ["A.pdf"; "notes.txt"; "B.PDF"] true)
                        <$> ["A.pdf"; "B.PDF"])));
          scan_cache_json := Content cache' |}, Ok true)
    ∧ (∀ pdf, pdf ∈ ["A.pdf"; "B.PDF"] →
         modified <$> cache' !! pdf =
         mtime (sample_world ["A.pdf"; "notes.txt"; "B.PDF"] true) pdf)
    ∧ ∀ t f p,
        listed (to_json (merge_token_maps
                  (extract_tokens_from_pdf
                     (sample_world ["A.pdf"; "notes.txt"; "B.PDF"] true)
                   <$> ["A.pdf"; "B.PDF"]))) t f p ↔
        ∃ pdf, pdf ∈ ["A.pdf"; "B.PDF"] ∧
               occurs (extract_tokens_from_pdf
                         (sample_world ["A.pdf"; "notes.txt"; "B.PDF"] true) pdf)
                      t f p.
Proof.
  apply (cold_start_full_index
           (sample_world ["A.pdf"; "notes.txt"; "B.PDF"] true) no_checkpoint
           ["A.pdf"; "notes.txt"; "B.PDF"] ["A.pdf"; "B.PDF"]).
  - apply sample_world_yields_all.
  - reflexivity.
  - discriminate.
  - reflexivity.
  - vm_compute. reflexivity.
  - intros pdf [->|[->|[]%elem_of_nil]%elem_of_cons]%elem_of_cons;
      vm_compute; eauto.
  - reflexivity.
  - reflexivity.
Defined.

Lemma extraction_failure_isolated_witness :
  ∃ word_map' cache',
    pdf_check_add (sample_world ["A.pdf"; "E.pdf"] true) {[ "A.pdf"; "E.pdf" ]}
                  ∅ ∅ = Ok (word_map', cache')
    ∧ occurs word_map' "v" "E.pdf" 1
    ∧ occurs word_map' "x" "A.pdf" 1
    ∧ ¬ occurs word_map' "u" "E.pdf" 3
    ∧ modified <$> cache' !! "E.pdf" = Some 100.
Proof.
  destruct (extraction_failure_isolated
              (sample_world ["A.pdf"; "E.pdf"] true) {[ "A.pdf"; "E.pdf" ]}
              ∅ ∅ "E.pdf")
    as (wm' & c' & Hadd & Hocc & Hbad & _ & _ & Hc & _).
  - apply sample_world_yields_all.
  - set_solver.
  - vm_compute. reflexivity.
  - intros pdf [->%elem_of_singleton| ->%elem_of_singleton]%elem_of_union;
      vm_compute; eauto.
  - exists wm', c'. split; [done|]. split; [|split; [|split; [|done]]].
    + apply Hocc. right. exists "E.pdf". split; [set_solver|].
      apply Hbad. split; [done|]. eexists _, 0%nat, _.
      split; [reflexivity|]. split; [reflexivity|]. split; [by left|done].
    + apply Hocc. right. exists "A.pdf". split; [set_solver|].
      apply occurs_extract. split; [done|]. eexists _, 0%nat, _.
      split; [reflexivity|]. split; [reflexivity|]. split; [by left|done].
    + rewrite Hocc. intros [[]%occurs_empty|(pdf & _ & Ho)].
      pose proof (occurs_extract_name _ _ _ _ _ Ho) as <-.
      apply Hbad in Ho as (_ & doc & i & tokens & Hdoc & Hread & _ & Hp).
      injection Hdoc as <-. assert (i = 2%nat) as -> by lia.
      vm_compute in Hread. discriminate.
Defined.

Lemma failed_run_checkpoint_witness :
  checkpoint_AB = checkpoint_AB
  ∧ (word_map_json truncated_index_AB = Corrupt ∧
     scan_cache_json truncated_index_AB = scan_cache_json checkpoint_AB)
  ∧ ((∃ word_map cache,
        checkpoint_update (sample_world ["A.pdf"; "B.pdf"; "C.pdf"] false)
          checkpoint_AB = Ok (word_map, cache) ∧
        word_map_json half_saved_ABC = Content (to_json word_map))
     ∧ scan_cache_json half_saved_ABC = scan_cache_json checkpoint_AB)
  ∧ ((∃ word_map cache,
        checkpoint_update (full_disk_world ["A.pdf"; "B.pdf"; "C.pdf"] true)
          checkpoint_AB = Ok (word_map, cache) ∧
        word_map_json truncated_cache_ABC = Content (to_json word_map))
     ∧ scan_cache_json truncated_cache_ABC = Corrupt).
Proof.
  split; [|split; [|split]].
  - apply (failed_run_checkpoint ghost_world checkpoint_AB checkpoint_AB
             (FileNotFoundError "ghost.pdf")); [|done..].
    vm_compute. reflexivity.
  - apply (failed_run_checkpoint
             (full_disk_world ["A.pdf"; "B.pdf"; "C.pdf"] false)
             checkpoint_AB truncated_index_AB (OSError OUTPUT_JSON));
      [|done]. vm_compute. reflexivity.
  - destruct (failed_run_checkpoint
                (sample_world ["A.pdf"; "B.pdf"; "C.pdf"] false)
                checkpoint_AB half_saved_ABC (PermissionError CACHE_FILE))
      as (_ & _ & Hcache); [vm_compute; reflexivity|].
    destruct Hcache as (Hindex & Hsame & _); [by left|].
    split; [exact Hindex|]. by apply Hsame.
  - destruct (failed_run_checkpoint
                (full_disk_world ["A.pdf"; "B.pdf"; "C.pdf"] true)
                checkpoint_AB truncated_cache_ABC (OSError CACHE_FILE))
      as (_ & _ & Hcache); [vm_compute; reflexivity|].
    destruct Hcache as (Hindex & _ & Htrunc); [by right|].
    split; [exact Hindex|]. by apply Htrunc.
Defined.

Lemma persisted_index_invariant_witness :
  (∃ data cache,
     word_map_json checkpoint_ABCD = Content data ∧
     scan_cache_json checkpoint_ABCD = Content cache ∧
     no_empty_entry data ∧ no_dangling data cache)
  ∧ no_empty_entry index_ABC.
Proof.
  split.
  - destruct (persisted_index_invariant
                (sample_world ["A.pdf"; "B.pdf"] true) no_checkpoint
                checkpoint_AB true) as (data0 & cache0 & Hd0 & Hc0 & _ & Hdang0);
      [vm_compute; reflexivity|].
    destruct (persisted_index_invariant
                (sample_world ["A.pdf"; "C.pdf"; "D.pdf"] true)
                checkpoint_AB checkpoint_ABCD true)
      as (data & cache & Hd & Hc & Hne & Hdang); [vm_compute; reflexivity|].
    exists data, cache. split; [done|]. split; [done|]. split; [done|].
    apply Hdang; [apply sample_world_yields_all|].
    intros data' t f p Hd' Hl. exists cache0. split; [done|].
    assert (checkpoint_consistent no_checkpoint) as Hcons0
      by (by intros ? ? ? ? [=]).
    apply (Hdang0 (sample_world_yields_all _ _) Hcons0 t f p). congruence.
  - destruct (persisted_index_invariant
                (sample_world ["A.pdf"; "B.pdf"] true) half_saved_ABC
                half_saved_ABC true) as (data & cache & Hd & _ & Hne & _);
      [vm_compute; reflexivity|].
    injection Hd as <-. exact Hne.
Defined.

(** ** Where the specification and the program part *)

(** Against C2 as stated.  With [scan_cache.json] read-only, the run that
    finds [C.pdf] added rewrites the index and fails in [save_cache]; the
    next run, on a folder that lost [C.pdf] again, completes and persists
    an index that still lists [C.pdf], which is not a key of the persisted
    cache. *)
Lemma dangling_after_failed_save :
  build_word_map_with_cache (sample_world ["A.pdf"; "B.pdf"; "C.pdf"] false)
    checkpoint_AB
    = (half_saved_ABC, Raise (PermissionError CACHE_FILE))
  ∧ build_word_map_with_cache (sample_world ["A.pdf"; "B.pdf"] true)
      half_saved_ABC
    = ({| word_map_json := Content index_ABC;
          scan_cache_json := Content {[ "A.pdf" := stamp; "B.pdf" := stamp ]} |},
       Ok true)
  ∧ ¬ no_dangling index_ABC {[ "A.pdf" := stamp; "B.pdf" := stamp ]}.
Proof.
  split; [vm_compute; reflexivity|]. split; [vm_compute; reflexivity|].
  intros Hnd. destruct (Hnd "z" "C.pdf" 1) as [e He]; [|done].
  exists {[ "C.pdf" := [1] ]}, [1]. split; [done|].
  split; [done|]. by left.
Qed.

(** Against C3 as stated.  [E.pdf] has a first page with the token [v]
    and a second page on which the OCR fallback raises: the exception is
    caught, and the document contributes the occurrence of [v], not an
    empty set. *)
Lemma failed_extraction_keeps_read_pages :
  extraction_fails (sample_world ["E.pdf"] true) "E.pdf" = true
  ∧ extract_tokens_from_pdf (sample_world ["E.pdf"] true) "E.pdf"
    = {[ "v" := {[ ("E.pdf", 1) ]} ]}
  ∧ pdf_check_add (sample_world ["E.pdf"] true) {[ "E.pdf" ]} ∅ ∅
    = Ok ({[ "v" := {[ ("E.pdf", 1) ]} ]}, {[ "E.pdf" := stamp ]})
  ∧ ({[ "v" := {[ ("E.pdf", 1) ]} ]} : TokenMap) ≠ ∅.
Proof.
  split; [vm_compute; reflexivity|]. split; [vm_compute; reflexivity|].
  split; [vm_compute; reflexivity|]. vm_compute. discriminate.
Qed.

(** Against C4 as stated.  From [checkpoint_AB], with [C.pdf] added and
    [scan_cache.json] not writable: the run ends in [PermissionError]
    after [word_map.json] was rewritten with the occurrences of [C.pdf],
    while the cache file still is the one of [checkpoint_AB]. *)
Lemma failed_save_cache_half_updates :
  build_word_map_with_cache (sample_world ["A.pdf"; "B.pdf"; "C.pdf"] false)
    checkpoint_AB
  = (half_saved_ABC, Raise (PermissionError CACHE_FILE))
  ∧ word_map_json half_saved_ABC ≠ word_map_json checkpoint_AB
  ∧ scan_cache_json half_saved_ABC = scan_cache_json checkpoint_AB.
Proof.
  split; [vm_compute; reflexivity|]. split; [vm_compute; discriminate|done].
Qed.

(** * Further properties of the program *)

(** ** Token maps without empty sets *)

Lemma no_empty_set_empty : no_empty_set ∅.
Proof. intros t locs. by rewrite lookup_empty. Qed.

Lemma no_empty_set_update_locations (token : string) (locations : gset Location)
    (word_map : TokenMap) :
  locations ≠ ∅ → no_empty_set word_map →
  no_empty_set (update_locations token locations word_map).
Proof.
  intros Hne Hwm t locs. rewrite lookup_update_locations.
  case_decide; [|apply Hwm]. intros [= <-]. set_solver.
Qed.

Lemma no_empty_set_update_all (new_data word_map : TokenMap) :
  no_empty_set new_data → no_empty_set word_map →
  no_empty_set (update_all new_data word_map).
Proof.
  intros Hnd Hwm t locs. rewrite lookup_update_all.
  destruct (new_data !! t) as [s|] eqn:Hs; simpl; [|apply Hwm].
  intros [= <-]. specialize (Hnd _ _ Hs). set_solver.
Qed.

Lemma no_empty_set_merge_from (l : list TokenMap) :
  ∀ acc, (∀ token_map, token_map ∈ l → no_empty_set token_map) →
         no_empty_set acc →
         no_empty_set (foldl (λ merged token_map, update_all token_map merged)
                             acc l).
Proof.
  induction l as [|a l IHl]; intros acc Hl Hacc; simpl; [done|].
  apply IHl.
  - intros tm Htm. apply Hl. by right.
  - apply no_empty_set_update_all; [apply Hl; left|done].
Qed.

Lemma no_empty_set_add_tokens (filename : string) (page : Z) (tokens : list string) :
  ∀ token_map : TokenMap,
    no_empty_set token_map →
    no_empty_set (foldl (λ tm token,
                           update_locations token {[ (filename, page) ]} tm)
                        token_map tokens).
Proof.
  induction tokens as [|token tokens IHt]; intros token_map Htm; simpl; [done|].
  apply IHt. apply no_empty_set_update_locations; [set_solver|done].
Qed.

Lemma no_empty_set_extract_pages (filename : string) (pages : list PageData) :
  ∀ (page_number : Z) (token_map : TokenMap),
    no_empty_set token_map →
    no_empty_set (extract_pages filename page_number pages token_map).
Proof.
  induction pages as [|pg pages IHp]; intros n token_map Htm; simpl; [done|].
  destruct (page_tokens pg) as [tokens|]; [|done].
  apply IHp. by apply no_empty_set_add_tokens.
Qed.

Lemma no_empty_set_extract (w : World) (pdf : string) :
  no_empty_set (extract_tokens_from_pdf w pdf).
Proof.
  unfold extract_tokens_from_pdf. destruct (fitz_open w pdf).
  - apply no_empty_set_extract_pages, no_empty_set_empty.
  - apply no_empty_set_empty.
Qed.

Lemma no_empty_set_from_json (data : IndexJSON) : no_empty_set (from_json data).
Proof.
  unfold from_json.
  apply (map_fold_weak_ind (λ r (_ : IndexJSON), no_empty_set r));
    [apply no_empty_set_empty|].
  intros token file_pages m r _ Hr.
  apply (map_fold_weak_ind (λ r' (_ : gmap string (list Z)), no_empty_set r'));
    [done|].
  intros file pages fp r' _ Hr'. clear -Hr'. revert r' Hr'.
  induction pages as [|page pages IHp]; intros r' Hr'; simpl; [done|].
  apply IHp. apply no_empty_set_update_locations; [set_solver|done].
Qed.

(** Two token maps without empty sets that hold the same occurrences are
    the same map. *)
Lemma token_map_ext (wm1 wm2 : TokenMap) :
  no_empty_set wm1 → no_empty_set wm2 →
  (∀ t f p, occurs wm1 t f p ↔ occurs wm2 t f p) →
  wm1 = wm2.
Proof.
  intros H1 H2 Hocc. apply map_eq. intros t.
  assert (∀ (a b : TokenMap) s, no_empty_set a →
            (∀ f p, occurs a t f p → occurs b t f p) →
            a !! t = Some s → ∃ s', b !! t = Some s' ∧ s ⊆ s') as Hsub.
  { intros a b s Ha Hab Hs.
    destruct (set_choose_L s (Ha _ _ Hs)) as [[f p] Hfp].
    destruct (Hab f p) as (s' & Hs' & _); [by exists s|].
    exists s'. split; [done|]. intros [f' p'] Hin.
    destruct (Hab f' p') as (s'' & Hs'' & Hin'); [by exists s|]. congruence. }
  destruct (wm1 !! t) as [s1|] eqn:E1, (wm2 !! t) as [s2|] eqn:E2.
  - destruct (Hsub wm1 wm2 s1 H1) as (s & Hs & Hincl); [intros; by apply Hocc|done|].
    destruct (Hsub wm2 wm1 s2 H2) as (s' & Hs' & Hincl'); [intros; by apply Hocc|done|].
    f_equal. simplify_eq. set_solver.
  - destruct (Hsub wm1 wm2 s1 H1) as (s & Hs & _); [intros; by apply Hocc|done|].
    congruence.
  - destruct (Hsub wm2 wm1 s2 H2) as (s & Hs & _); [intros; by apply Hocc|done|].
    congruence.
  - done.
Qed.
(** ** What a document contributes *)

Lemma read_pages_lookup (doc : list PageData) :
  ∀ (i : nat) tokens,
    read_pages doc !! i = Some tokens →
    ∃ page, doc !! i = Some page ∧ page_tokens page = Some tokens.
Proof.
  induction doc as [|pg doc IHd]; intros i tokens; simpl; [done|].
  destruct (page_tokens pg) as [toks|] eqn:Hpg; [|done].
  destruct i as [|i]; simpl.
  - intros [= <-]. eauto.
  - apply IHd.
Qed.

Lemma read_pages_all (doc : list PageData) :
  existsb (λ p, bool_decide (page_tokens p = None)) doc = false →
  ∀ (i : nat) page tokens,
    doc !! i = Some page → page_tokens page = Some tokens →
    read_pages doc !! i = Some tokens.
Proof.
  induction doc as [|pg doc IHd]; intros Hall i page tokens; simpl; [done|].
  simpl in Hall. apply orb_false_iff in Hall as [Hpg Hrest].
  destruct (page_tokens pg) as [toks|] eqn:Hpt; [|done].
  destruct i as [|i]; simpl.
  - intros [= <-] Ht. congruence.
  - by apply IHd.
Qed.

(** X1.  Every occurrence extracted from a document carries the name of
    that document and a 1-based page number of an existing page whose
    tokens hold the token. *)
Theorem extracted_occurrences_in_range (w : World) (pdf t f : string) (p : Z) :
  occurs (extract_tokens_from_pdf w pdf) t f p →
  f = pdf ∧
  ∃ doc page tokens,
    fitz_open w pdf = Some doc ∧
    1 ≤ p ≤ Z.of_nat (List.length doc) ∧
    doc !! Z.to_nat (p - 1) = Some page ∧
    page_tokens page = Some tokens ∧ t ∈ tokens.
Proof.
  intros (-> & doc & i & tokens & Hdoc & Hread & Ht & ->)%occurs_extract.
  split; [done|].
  destruct (read_pages_lookup _ _ _ Hread) as (page & Hpage & Hpt).
  exists doc, page, tokens. split; [done|].
  pose proof (lookup_lt_Some _ _ _ Hpage) as Hlt.
  split; [lia|]. replace (Z.to_nat (Z.of_nat i + 1 - 1)) with i by lia. done.
Qed.

(** X2.  When no call raises, the extracted map holds every token of every
    page, at the 1-based number of the page, and nothing else. *)
Theorem complete_extraction (w : World) (pdf t f : string) (p : Z) :
  extraction_fails w pdf = false →
  (occurs (extract_tokens_from_pdf w pdf) t f p ↔
   f = pdf ∧
   ∃ doc (i : nat) page tokens,
     fitz_open w pdf = Some doc ∧ doc !! i = Some page ∧
     page_tokens page = Some tokens ∧ t ∈ tokens ∧ p = Z.of_nat i + 1).
Proof.
  unfold extraction_fails. intros Hok. rewrite occurs_extract. split.
  - intros (-> & doc & i & tokens & Hdoc & Hread & Ht & ->). split; [done|].
    destruct (read_pages_lookup _ _ _ Hread) as (page & Hpage & Hpt).
    exists doc, i, page, tokens. done.
  - intros (-> & doc & i & page & tokens & Hdoc & Hpage & Hpt & Ht & ->).
    split; [done|]. rewrite Hdoc in Hok.
    exists doc, i, tokens. split; [done|]. split; [|done].
    by eapply read_pages_all.
Qed.

(** X3.  The map returned by [extract_tokens_from_pdf] has no token with an
    empty set of locations, and neither has a merge of such maps. *)
Theorem extracted_sets_nonempty (w : World) (pdf : string) (pdfs : list string) :
  no_empty_set (extract_tokens_from_pdf w pdf) ∧
  no_empty_set (merge_token_maps (extract_tokens_from_pdf w <$> pdfs)).
Proof.
  split; [apply no_empty_set_extract|].
  apply no_empty_set_merge_from; [|apply no_empty_set_empty].
  intros tm (x & -> & _)%list_elem_of_fmap. apply no_empty_set_extract.
Qed.

(** ** The merged map *)

Lemma is_Some_merge_from (l : list TokenMap) :
  ∀ (acc : TokenMap) t,
    is_Some (foldl (λ merged token_map, update_all token_map merged) acc l !! t) ↔
    is_Some (acc !! t) ∨ ∃ token_map, token_map ∈ l ∧ is_Some (token_map !! t).
Proof.
  induction l as [|a l IHl]; intros acc t; simpl.
  - split; [by left|]. intros [?|(? & []%elem_of_nil & _)]; done.
  - rewrite IHl, lookup_update_all. split.
    + intros [Hj|(tm & Hin & Hs)].
      * destruct (a !! t) as [s|] eqn:Ha; simpl in Hj.
        -- right. exists a. split; [left|]. by rewrite Ha.
        -- by left.
      * right. exists tm. split; [by right|done].
    + intros [Hacc|(tm & [->|Hin]%elem_of_cons & Hs)].
      * left. destruct (a !! t); simpl; [done|done].
      * left. destruct Hs as [s ->]. simpl. done.
      * right. eauto.
Qed.

(** X4.  [merge_token_maps] is the union of its arguments: the merged map
    has a token exactly when one of the maps has it, and it holds an
    occurrence exactly when one of the maps holds it. *)
Theorem merge_token_maps_union (all_maps : list TokenMap) :
  (∀ token, is_Some (merge_token_maps all_maps !! token) ↔
            ∃ token_map, token_map ∈ all_maps ∧ is_Some (token_map !! token))
  ∧ ∀ token file page,
      occurs (merge_token_maps all_maps) token file page ↔
      ∃ token_map, token_map ∈ all_maps ∧ occurs token_map token file page.
Proof.
  split.
  - intros token. unfold merge_token_maps. rewrite is_Some_merge_from.
    rewrite lookup_empty. split; [|by right].
    intros [[? [=]]|?]; done.
  - intros token file page. apply occurs_merge_token_maps.
Qed.

(** ** Saving and loading the index *)

Lemma strictly_sorted_NoDup (l : list Z) : StronglySorted Z.lt l → NoDup l.
Proof.
  induction 1 as [|x l Hl IH Hx]; [constructor|].
  constructor; [|done]. intros Hin.
  rewrite Forall_forall in Hx. specialize (Hx _ Hin). lia.
Qed.

Lemma strictly_sorted_ext (l1 l2 : list Z) :
  StronglySorted Z.lt l1 → StronglySorted Z.lt l2 →
  (∀ x, x ∈ l1 ↔ x ∈ l2) → l1 = l2.
Proof.
  intros H1 H2 Hel. apply (StronglySorted_unique_strong Z.lt); [lia|done..|].
  apply NoDup_Permutation; auto using strictly_sorted_NoDup.
Qed.

Lemma well_formed_to_json (word_map : TokenMap) : well_formed (to_json word_map).
Proof.
  split; [apply no_empty_entry_to_json|].
  intros token pdf_map file pages Ht Hf.
  by destruct (to_json_pages_sorted _ _ _ _ _ Ht Hf) as [? _].
Qed.

(** Two well-formed index values that list the same occurrences are the
    same value. *)
Lemma index_json_ext (d1 d2 : IndexJSON) :
  well_formed d1 → well_formed d2 →
  (∀ t f p, listed d1 t f p ↔ listed d2 t f p) →
  d1 = d2.
Proof.
  intros [Hne1 Hs1] [Hne2 Hs2] Hl.
  assert (∀ (a b : IndexJSON) t pm, no_empty_entry a →
            (∀ f p, listed a t f p → listed b t f p) →
            a !! t = Some pm →
            ∃ pm', b !! t = Some pm' ∧
                   ∀ f pages, pm !! f = Some pages →
                              ∃ pages', pm' !! f = Some pages' ∧
                                        ∀ p, p ∈ pages → p ∈ pages') as Hsub.
  { intros a b t pm Ha Hab Hpm. destruct (Ha _ _ Hpm) as [Hpmne Hpg].
    destruct (map_choose _ Hpmne) as (f0 & pages0 & Hf0).
    destruct pages0 as [|p0 pages0]; [by destruct (Hpg _ _ Hf0)|].
    destruct (Hab f0 p0) as (pm' & ? & Hpm' & _).
    { exists pm, (p0 :: pages0). split; [done|]. split; [done|left]. }
    exists pm'. split; [done|]. intros f pages Hf.
    destruct pages as [|p pages]; [by destruct (Hpg _ _ Hf)|].
    destruct (Hab f p) as (pm'' & pages' & Hpm'' & Hf' & _).
    { exists pm, (p :: pages). split; [done|]. split; [done|left]. }
    assert (pm'' = pm') as -> by congruence.
    exists pages'. split; [done|]. intros q Hq.
    destruct (Hab f q) as (pm3 & pages3 & Hpm3 & Hf3 & Hq3).
    { exists pm, (p :: pages). done. }
    congruence. }
  apply map_eq. intros t.
  destruct (d1 !! t) as [pm1|] eqn:E1, (d2 !! t) as [pm2|] eqn:E2.
  - destruct (Hsub d1 d2 t pm1 Hne1) as (pm & Hpm & H12);
      [intros; by apply Hl|done|].
    destruct (Hsub d2 d1 t pm2 Hne2) as (pm' & Hpm' & H21);
      [intros; by apply Hl|done|].
    simplify_eq. f_equal. apply map_eq. intros f.
    destruct (pm1 !! f) as [l1|] eqn:F1, (pm2 !! f) as [l2|] eqn:F2.
    + destruct (H12 _ _ F1) as (l & ? & Hin12).
      destruct (H21 _ _ F2) as (l' & ? & Hin21). simplify_eq. f_equal.
      apply strictly_sorted_ext; [by eapply Hs1|by eapply Hs2|].
      intros x. split; auto.
    + destruct (H12 _ _ F1) as (l & ? & _). congruence.
    + destruct (H21 _ _ F2) as (l & ? & _). congruence.
    + done.
  - destruct (Hsub d1 d2 t pm1 Hne1) as (pm & Hpm & _);
      [intros; by apply Hl|done|]. congruence.
  - destruct (Hsub d2 d1 t pm2 Hne2) as (pm & Hpm & _);
      [intros; by apply Hl|done|]. congruence.
  - done.
Qed.

Lemma to_json_from_json (data : IndexJSON) :
  well_formed data → to_json (from_json data) = data.
Proof.
  intros Hwf. apply index_json_ext; [apply well_formed_to_json|done|].
  intros t f p. by rewrite listed_to_json, occurs_from_json.
Qed.

Lemma from_json_to_json (word_map : TokenMap) :
  no_empty_set word_map → from_json (to_json word_map) = word_map.
Proof.
  intros Hne. apply token_map_ext; [apply no_empty_set_from_json|done|].
  intros t f p. by rewrite occurs_from_json, listed_to_json.
Qed.

(** X5.  [save_word_map_json] writes a value whose dicts are non-empty and
    whose page lists are non-empty and strictly ascending, and leaves
    [scan_cache.json] as it was.  Loading that value gives back the
    occurrences of the saved map, without any token with an empty set; it
    gives back the saved map itself when that one has no such token. *)
Theorem save_then_load (w : World) (word_map : TokenMap) (d d' : Disk) :
  save_word_map_json w word_map d = (d', Ok ()) →
  scan_cache_json d' = scan_cache_json d ∧
  word_map_json d' = Content (to_json word_map) ∧
  well_formed (to_json word_map) ∧
  ∃ word_map',
    load_existing_word_map_json d' = (d', Ok word_map') ∧
    no_empty_set word_map' ∧
    (∀ t f p, occurs word_map' t f p ↔ occurs word_map t f p) ∧
    (no_empty_set word_map → word_map' = word_map).
Proof.
  unfold save_word_map_json, load_existing_word_map_json.
  destruct (output_writable w); [|by destruct (output_truncated w)].
  intros [= <-]. simpl.
  split; [done|]. split; [done|]. split; [apply well_formed_to_json|].
  exists (from_json (to_json word_map)).
  split; [done|]. split; [apply no_empty_set_from_json|]. split.
  - intros t f p. by rewrite occurs_from_json, listed_to_json.
  - apply from_json_to_json.
Qed.

(** X6.  Saving what [load_existing_word_map_json] read from a file whose
    dicts are non-empty and whose page lists are non-empty and strictly
    ascending writes the same value back. *)
Theorem load_then_save (w : World) (d : Disk) (data : IndexJSON) :
  word_map_json d = Content data →
  well_formed data →
  output_writable w = true →
  ∃ word_map,
    load_existing_word_map_json d = (d, Ok word_map) ∧
    save_word_map_json w word_map d = (d, Ok ()).
Proof.
  intros Hd Hwf How. exists (from_json data).
  unfold load_existing_word_map_json, save_word_map_json. rewrite Hd, How.
  split; [done|].
  rewrite to_json_from_json by done. destruct d; simpl in *. by subst.
Qed.

(** ** The three passes *)

Lemma scan_modified_raise (w : World) (cache : Cache) (pdfs : list string) :
  ∀ acc : gset string,
    (∃ pdf, pdf ∈ pdfs ∧ mtime w pdf = None) →
    ∃ pdf, pdf ∈ pdfs ∧ mtime w pdf = None ∧
           scan_modified w cache pdfs acc = Raise (FileNotFoundError pdf).
Proof.
  induction pdfs as [|x rest IHr]; intros acc (pdf & Hin & Hnone).
  - by apply elem_of_nil in Hin.
  - simpl. unfold getmtime. destruct (mtime w x) as [t|] eqn:Ht; simpl.
    + apply elem_of_cons in Hin as [->|Hin]; [congruence|].
      destruct (IHr (if decide (modified <$> cache !! x = Some t)
                     then acc else acc ∪ {[x]})) as (k & Hk & Hkn & ->); [eauto|].
      exists k. split; [by right|done].
    + exists x. split; [left|done].
Qed.

(** X7.  The scan of lines 148-153 selects exactly the listed documents
    whose cached time stamp is missing or differs from the one on disk; it
    raises when a time stamp cannot be read. *)
Theorem scan_modified_selects_stale (w : World) (cache : Cache)
    (all_pdfs : list string) :
  ((∀ pdf, pdf ∈ all_pdfs → is_Some (mtime w pdf)) →
   ∃ modified_pdfs,
     scan_modified w cache all_pdfs ∅ = Ok modified_pdfs ∧
     ∀ pdf, pdf ∈ modified_pdfs ↔
            pdf ∈ all_pdfs ∧ modified <$> cache !! pdf ≠ mtime w pdf)
  ∧ ((∃ pdf, pdf ∈ all_pdfs ∧ mtime w pdf = None) →
     ∃ pdf, pdf ∈ all_pdfs ∧ mtime w pdf = None ∧
            scan_modified w cache all_pdfs ∅ = Raise (FileNotFoundError pdf)).
Proof.
  split; [|apply scan_modified_raise].
  intros Hstat. destruct (scan_modified_total w cache all_pdfs ∅ Hstat) as [M HM].
  exists M. split; [done|]. intros pdf.
  rewrite (scan_modified_inv _ _ _ _ _ HM). set_solver.
Qed.

(** X8.  With every name a key of the cache, [pdf_check_deleted] returns a
    map that holds the occurrences of the other documents and only those,
    and a cache without the deleted names, other entries untouched.  With
    a non-empty [deleted_pdfs] no token of the returned map has an empty
    set; with an empty one both arguments are returned as they are. *)
Theorem pdf_check_deleted_purges (deleted_pdfs : gset string)
    (word_map : TokenMap) (cache : Cache) :
  deleted_pdfs ⊆ dom cache →
  ∃ word_map' cache',
    pdf_check_deleted deleted_pdfs word_map cache = Ok (word_map', cache')
    ∧ (∀ t f p, occurs word_map' t f p ↔
                occurs word_map t f p ∧ f ∉ deleted_pdfs)
    ∧ dom cache' = dom cache ∖ deleted_pdfs
    ∧ (∀ k, k ∉ deleted_pdfs → cache' !! k = cache !! k)
    ∧ (deleted_pdfs ≠ ∅ → no_empty_set word_map')
    ∧ (deleted_pdfs = ∅ → word_map' = word_map ∧ cache' = cache).
Proof.
  intros Hsub.
  destruct (pdf_check_deleted_total deleted_pdfs word_map cache)
    as [[wm' c'] Hdel].
  { intros k Hk. apply elem_of_dom. set_solver. }
  exists wm', c'. split; [done|].
  destruct (pdf_check_deleted_inv _ _ _ _ _ Hdel) as (Hocc & Hc & _).
  split; [done|]. split; [|split; [|split]].
  - apply set_eq. intros k. rewrite elem_of_difference, !elem_of_dom, Hc.
    case_decide; [|naive_solver]. split; [by intros [? [=]]|naive_solver].
  - intros k Hk. rewrite Hc. by rewrite decide_False.
  - intros Hne t locs. revert Hdel. unfold pdf_check_deleted.
    rewrite decide_False by done.
    destruct (del_all (elements deleted_pdfs) cache); [done|]. simpl.
    intros [= <- _]. rewrite lookup_purge_all. unfold purged.
    destruct (word_map !! t); [|done]. case_decide; [done|]. by intros [= <-].
  - intros ->. revert Hdel. unfold pdf_check_deleted.
    rewrite decide_True by done. by intros [= <- <-].
Qed.

Lemma record_mtimes_raise (w : World) (pdfs : list string) :
  ∀ cache : Cache,
    (∃ pdf, pdf ∈ pdfs ∧ mtime w pdf = None) →
    ∃ pdf, pdf ∈ pdfs ∧ mtime w pdf = None ∧
           record_mtimes w pdfs cache = Raise (FileNotFoundError pdf).
Proof.
  induction pdfs as [|x rest IHr]; intros cache (pdf & Hin & Hnone).
  - by apply elem_of_nil in Hin.
  - simpl. unfold getmtime. destruct (mtime w x) as [t|] eqn:Ht; simpl.
    + apply elem_of_cons in Hin as [->|Hin]; [congruence|].
      destruct (IHr (<[x := {| modified := t |}]> cache))
        as (k & Hk & Hkn & ->); [eauto|].
      exists k. split; [by right|done].
    + exists x. split; [left|done].
Qed.

(** X9.  [pdf_check_add] never removes anything: on success every
    occurrence of the index is still there, the keys of the cache are the
    old ones and the new documents, each new document has its time stamp
    on disk as entry and the other entries are untouched.  When the time
    stamp of a new document cannot be read it raises
    [FileNotFoundError]. *)
Theorem pdf_check_add_extends (w : World) (new_pdfs : gset string)
    (word_map : TokenMap) (cache : Cache) :
  ((∀ pdf, pdf ∈ new_pdfs → is_Some (mtime w pdf)) →
   ∃ word_map' cache',
     pdf_check_add w new_pdfs word_map cache = Ok (word_map', cache')
     ∧ (∀ t f p, occurs word_map t f p → occurs word_map' t f p)
     ∧ (∀ t, is_Some (word_map !! t) → is_Some (word_map' !! t))
     ∧ dom cache' = dom cache ∪ new_pdfs
     ∧ (∀ pdf, pdf ∈ new_pdfs → modified <$> cache' !! pdf = mtime w pdf)
     ∧ (∀ k, k ∉ new_pdfs → cache' !! k = cache !! k))
  ∧ ((∃ pdf, pdf ∈ new_pdfs ∧ mtime w pdf = None) →
     ∃ pdf, pdf ∈ new_pdfs ∧ mtime w pdf = None ∧
            pdf_check_add w new_pdfs word_map cache
            = Raise (FileNotFoundError pdf)).
Proof.
  split.
  - intros Hstat. unfold pdf_check_add. case_decide as Hempty.
    { subst. exists word_map, cache. split; [done|].
      repeat split; try done; set_solver. }
    destruct (record_mtimes_total w (elements new_pdfs) cache) as [c Hrec].
    { intros pdf Hin. apply Hstat. by apply elem_of_elements. }
    rewrite Hrec. simpl. eexists _, c. split; [done|].
    pose proof (record_mtimes_inv _ _ _ _ Hrec) as Hc.
    split; [|split; [|split; [|split]]].
    + intros t f p Ho. apply occurs_update_all. by left.
    + intros t [s Hs]. rewrite lookup_update_all, Hs.
      destruct (merge_token_maps _ !! t); simpl; eauto.
    + apply set_eq. intros k. rewrite elem_of_union, !elem_of_dom, Hc.
      case_decide as Hk.
      * apply elem_of_elements in Hk. destruct (Hstat _ Hk) as [x ->].
        simpl. naive_solver.
      * rewrite elem_of_elements in Hk. naive_solver.
    + intros pdf Hin. rewrite Hc, decide_True by (by apply elem_of_elements).
      by destruct (mtime w pdf).
    + intros k Hk. rewrite Hc, decide_False; [done|].
      by rewrite elem_of_elements.
  - intros (pdf & Hin & Hnone). unfold pdf_check_add.
    rewrite decide_False by set_solver.
    destruct (record_mtimes_raise w (elements new_pdfs) cache)
      as (k & Hk & Hkn & ->).
    { exists pdf. split; [by apply elem_of_elements|done]. }
    exists k. split; [by apply elem_of_elements|done].
Qed.

(** ** The incremental update *)

Lemma incremental_split (w : World) (all_pdfs : list string)
    (word_map : TokenMap) (cache : Cache) :
  incremental w all_pdfs word_map cache =
  '(word_map, cache) ← first_pass w all_pdfs word_map cache;
  rescan w all_pdfs word_map cache.
Proof. reflexivity. Qed.

Lemma rescan_inv (w : World) (all_pdfs : list string)
    (wm1 wm' : TokenMap) (c1 cache' : Cache) :
  yields_all w →
  rescan w all_pdfs wm1 c1 = Ok (wm', cache') →
  ∃ M : gset string,
    (∀ k, k ∈ M ↔ k ∈ all_pdfs ∧ modified <$> c1 !! k ≠ mtime w k)
    ∧ (∀ k, k ∈ all_pdfs → is_Some (mtime w k))
    ∧ (∀ k, k ∈ M → is_Some (c1 !! k))
    ∧ (∀ t f p, occurs wm' t f p ↔
         (occurs wm1 t f p ∧ f ∉ M) ∨
         ∃ pdf, pdf ∈ M ∧ occurs (extract_tokens_from_pdf w pdf) t f p)
    ∧ ∀ k, cache' !! k = if decide (k ∈ M) then Build_CacheEntry <$> mtime w k
                         else c1 !! k.
Proof.
  intros Hw. unfold rescan.
  destruct (scan_modified w c1 all_pdfs ∅) as [e|M] eqn:HM; [done|]. simpl.
  assert (∀ k, k ∈ M ↔ k ∈ all_pdfs ∧ modified <$> c1 !! k ≠ mtime w k) as HMspec.
  { intros k. rewrite (scan_modified_inv _ _ _ _ _ HM). set_solver. }
  pose proof (scan_modified_listed _ _ _ _ _ HM) as Hstat.
  case_decide as Hempty.
  - intros [= <- <-]. exists M. subst M. split; [done|]. split; [done|].
    split; [set_solver|]. split.
    + intros t f p. set_solver.
    + intros k. rewrite decide_False; [done|set_solver].
  - destruct (pdf_check_deleted M wm1 c1) as [e|[wm3 c3]] eqn:Hdel; [done|].
    simpl. intros Hadd.
    destruct (pdf_check_deleted_inv _ _ _ _ _ Hdel) as (Hocc3 & Hc3 & Hsub).
    destruct (pdf_check_add_inv _ _ _ _ _ _ Hw Hadd) as [Hocc Hc].
    exists M. split; [done|]. split; [done|]. split; [done|]. split.
    + intros t f p. by rewrite Hocc, Hocc3.
    + intros k. rewrite Hc, Hc3. by case_decide.
Qed.

Lemma rescan_total (w : World) (all_pdfs : list string)
    (wm1 : TokenMap) (c1 : Cache) :
  (∀ k, k ∈ all_pdfs → is_Some (mtime w k)) →
  (∀ k, k ∈ all_pdfs → is_Some (c1 !! k)) →
  ∃ r, rescan w all_pdfs wm1 c1 = Ok r.
Proof.
  intros Hstat Hcached. unfold rescan.
  destruct (scan_modified_total w c1 all_pdfs ∅ Hstat) as [M HM].
  rewrite HM. simpl. case_decide; [eauto|].
  assert (∀ k, k ∈ M → k ∈ all_pdfs) as HMall.
  { intros k Hk. apply (scan_modified_inv _ _ _ _ _ HM) in Hk. set_solver. }
  destruct (pdf_check_deleted_total M wm1 c1) as [[wm3 c3] ->]; [by auto|].
  simpl. apply pdf_check_add_total. auto.
Qed.

(** The first pass when additions and removals do not come together. *)
Lemma first_pass_separate (w : World) (all_pdfs : list string)
    (word_map : TokenMap) (cache : Cache) :
  yields_all w →
  (∀ pdf, pdf ∈ all_pdfs → is_Some (mtime w pdf)) →
  (dom cache ⊆ list_to_set all_pdfs ∨ list_to_set all_pdfs ⊆ dom cache) →
  ∃ wm1 c1,
    first_pass w all_pdfs word_map cache = Ok (wm1, c1)
    ∧ (∀ t f p, occurs wm1 t f p ↔
         (occurs word_map t f p ∧ (f ∈ all_pdfs ∨ cache !! f = None)) ∨
         ∃ pdf, pdf ∈ all_pdfs ∧ cache !! pdf = None ∧
                occurs (extract_tokens_from_pdf w pdf) t f p)
    ∧ ∀ k, c1 !! k = if decide (k ∈ all_pdfs)
                     then match cache !! k with
                          | Some e => Some e
                          | None => Build_CacheEntry <$> mtime w k
                          end
                     else None.
Proof.
  intros Hw Hstat Hsep. unfold first_pass.
  set (A := list_to_set all_pdfs : gset string).
  assert (∀ k, k ∈ A ↔ k ∈ all_pdfs) as HA by (intros; apply elem_of_list_to_set).
  assert (∀ k, k ∈ dom cache ↔ is_Some (cache !! k)) as HC
    by (intros; apply elem_of_dom).
  assert (∀ k, cache !! k = None ↔ k ∉ dom cache) as HN
    by (intros; by rewrite not_elem_of_dom).
  case_decide as Hpos; [|case_decide as Hneg].
  - (* the count grew: the cache lists no other document *)
    assert (dom cache ⊆ A) as Hsub.
    { destruct Hsep as [?|Hsub]; [done|]. apply subseteq_size in Hsub.
      exfalso. unfold A in *. lia. }
    destruct (pdf_check_add_total w (A ∖ dom cache) word_map cache)
      as [[wm1 c1] Hadd].
    { intros pdf [Hin _]%elem_of_difference. apply Hstat. by apply HA. }
    destruct (pdf_check_add_inv _ _ _ _ _ _ Hw Hadd) as [Hocc Hc].
    exists wm1, c1. split; [done|]. split.
    + intros t f p. rewrite Hocc. split.
      * intros [Ho|(pdf & [Hin Hout]%elem_of_difference & Ho)].
        -- left. split; [done|]. destruct (cache !! f) eqn:Hf; [|by right].
           left. apply HA, Hsub, HC. by rewrite Hf.
        -- right. exists pdf. rewrite <-HA, HN. done.
      * intros [[Ho _]|(pdf & Hin & Hnone & Ho)]; [by left|].
        right. exists pdf. rewrite elem_of_difference, HA, <-HN. done.
    + intros k. rewrite Hc. destruct (decide (k ∈ all_pdfs)) as [Hk|Hk].
      * destruct (cache !! k) eqn:Hck.
        -- rewrite decide_False; [done|]. rewrite elem_of_difference, HC, Hck.
           intros [_ []]. done.
        -- rewrite decide_True; [done|]. rewrite elem_of_difference, HA, <-HN. done.
      * rewrite decide_False by (rewrite elem_of_difference, HA; tauto).
        apply HN. intros Hin. apply Hk, HA, Hsub, Hin.
  - (* the count shrank: every listed document is cached *)
    assert (A ⊆ dom cache) as Hsub.
    { destruct Hsep as [Hsub|?]; [|done]. apply subseteq_size in Hsub.
      exfalso. unfold A in *. lia. }
    destruct (pdf_check_deleted_total (dom cache ∖ A) word_map cache)
      as [[wm1 c1] Hdel].
    { intros k [Hk _]%elem_of_difference. by apply HC. }
    destruct (pdf_check_deleted_inv _ _ _ _ _ Hdel) as (Hocc & Hc & _).
    exists wm1, c1. split; [done|]. split.
    + intros t f p. rewrite Hocc. split.
      * intros [Ho Hf]. left. split; [done|].
        destruct (decide (f ∈ all_pdfs)); [by left|right].
        destruct (cache !! f) eqn:Hcf; [|done]. destruct Hf.
        apply elem_of_difference. split; [apply HC; by rewrite Hcf|].
        by rewrite HA.
      * intros [[Ho Hf]|(pdf & Hin & Hnone & _)].
        -- split; [done|]. intros [Hin Hout]%elem_of_difference.
           destruct Hf as [?|Hnone]; [by apply Hout, HA|].
           apply HC in Hin. rewrite Hnone in Hin. by destruct Hin.
        -- apply HA, Hsub, HC in Hin. rewrite Hnone in Hin. by destruct Hin.
    + intros k. rewrite Hc. destruct (decide (k ∈ all_pdfs)) as [Hk|Hk].
      * rewrite decide_False by (rewrite elem_of_difference, HA; tauto).
        apply HA, Hsub, HC in Hk as [e ->]. done.
      * destruct (decide (k ∈ dom cache)) as [Hin|Hout].
        -- rewrite decide_True; [done|]. rewrite elem_of_difference, HA. done.
        -- rewrite decide_False by (rewrite elem_of_difference; tauto).
           by apply HN.
  - (* equal counts: the two sets are equal *)
    assert (A = dom cache) as Heq.
    { destruct Hsep as [Hsub|Hsub].
      - symmetry. apply set_subseteq_size_eq; [done|unfold A in *; lia].
      - apply set_subseteq_size_eq; [done|unfold A in *; lia]. }
    exists word_map, cache. split; [done|]. split.
    + intros t f p. split.
      * intros Ho. left. split; [done|].
        destruct (cache !! f) eqn:Hcf; [left|by right].
        apply HA. rewrite Heq. apply HC. by rewrite Hcf.
      * intros [[Ho _]|(pdf & Hin & Hnone & _)]; [done|].
        apply HA in Hin. rewrite Heq in Hin. apply HC in Hin.
        rewrite Hnone in Hin. by destruct Hin.
    + intros k. destruct (decide (k ∈ all_pdfs)) as [Hk|Hk].
      * apply HA in Hk. rewrite Heq in Hk. apply HC in Hk as [e ->]. done.
      * apply HN. rewrite <-Heq, HA. done.
Qed.

Lemma modified_stamp (w : World) (k : string) :
  modified <$> (Build_CacheEntry <$> mtime w k) = mtime w k.
Proof. by destruct (mtime w k). Qed.

(** X10.  When additions and removals do not come together (the cache has
    no key outside the folder, or the folder no PDF outside the cache) and
    every time stamp can be read, lines 141-157 return: the index loses the
    occurrences of the removed and of the stale documents, gains what is
    extracted from the new and from the stale ones, and the cache maps
    exactly the listed PDFs, each to its time stamp on disk. *)
Theorem incremental_separate_changes (w : World) (all_pdfs : list string)
    (word_map : TokenMap) (cache : Cache) :
  yields_all w →
  (∀ pdf, pdf ∈ all_pdfs → is_Some (mtime w pdf)) →
  (dom cache ⊆ list_to_set all_pdfs ∨ list_to_set all_pdfs ⊆ dom cache) →
  ∃ word_map' cache',
    incremental w all_pdfs word_map cache = Ok (word_map', cache')
    ∧ (∀ t f p, occurs word_map' t f p ↔
         (occurs word_map t f p ∧ (f ∈ all_pdfs ∨ cache !! f = None) ∧
          ¬ (f ∈ all_pdfs ∧ stale w cache f))
         ∨ ∃ pdf, pdf ∈ all_pdfs ∧ (cache !! pdf = None ∨ stale w cache pdf) ∧
                  occurs (extract_tokens_from_pdf w pdf) t f p)
    ∧ dom cache' = list_to_set all_pdfs
    ∧ ∀ pdf, pdf ∈ all_pdfs → modified <$> cache' !! pdf = mtime w pdf.
Proof.
  intros Hw Hstat Hsep. rewrite incremental_split.
  destruct (first_pass_separate w all_pdfs word_map cache Hw Hstat Hsep)
    as (wm1 & c1 & -> & Hocc1 & Hc1). simpl.
  assert (∀ k, k ∈ all_pdfs → is_Some (c1 !! k)) as Hcached.
  { intros k Hk. rewrite Hc1, decide_True by done.
    destruct (cache !! k); [done|]. by destruct (Hstat _ Hk) as [x ->]. }
  destruct (rescan_total w all_pdfs wm1 c1 Hstat Hcached) as [[wm' c'] Hre].
  destruct (rescan_inv _ _ _ _ _ _ Hw Hre) as (M & HM & _ & _ & Hocc & Hc).
  assert (∀ k, k ∈ M ↔ k ∈ all_pdfs ∧ stale w cache k) as HM'.
  { intros k. rewrite HM. unfold stale. split.
    - intros [Hk Hne]. split; [done|]. rewrite Hc1, decide_True in Hne by done.
      destruct (cache !! k); [done|]. by rewrite modified_stamp in Hne.
    - intros [Hk [[e He] Hne]]. split; [done|].
      rewrite Hc1, decide_True by done. rewrite He in *. done. }
  exists wm', c'. split; [done|]. split; [|split].
  - intros t f p. rewrite Hocc, Hocc1. split.
    + intros [[[[Ho Hf]|(pdf & Hin & Hnone & Ho)] HfM]|(pdf & Hin & Ho)].
      * left. rewrite <-HM'. done.
      * right. exists pdf. split; [done|]. split; [by left|done].
      * right. exists pdf. apply HM' in Hin as [Hin Hst].
        split; [done|]. split; [by right|done].
    + intros [(Ho & Hf & Hns)|(pdf & Hin & [Hnone|Hst] & Ho)].
      * left. rewrite HM'. split; [by left|done].
      * left. split; [right; eauto|].
        rewrite (occurs_extract_name _ _ _ _ _ Ho), HM'.
        intros [_ [[e He] _]]. congruence.
      * right. exists pdf. rewrite HM'. done.
  - apply set_eq. intros k. rewrite elem_of_dom, elem_of_list_to_set, Hc.
    case_decide as HkM.
    + apply HM in HkM as [Hk _]. destruct (Hstat _ Hk) as [x ->]. simpl.
      split; [done|eauto].
    + rewrite Hc1. case_decide as Hk; [|by split; [intros [? [=]]|]].
      split; [done|]. intros _. destruct (cache !! k); [done|].
      by destruct (Hstat _ Hk) as [x ->].
  - intros pdf Hin. rewrite Hc. case_decide as HkM; [apply modified_stamp|].
    rewrite HM in HkM.
    destruct (decide (modified <$> c1 !! pdf = mtime w pdf)); [done|].
    destruct HkM. done.
Qed.

Lemma pdf_check_add_cache_inv (w : World) (new_pdfs : gset string)
    (word_map word_map' : TokenMap) (cache cache' : Cache) :
  pdf_check_add w new_pdfs word_map cache = Ok (word_map', cache') →
  ∀ k, cache' !! k = if decide (k ∈ new_pdfs)
                     then Build_CacheEntry <$> mtime w k else cache !! k.
Proof.
  unfold pdf_check_add. case_decide as Hempty.
  - intros [= <- <-] k. rewrite decide_False; [done|set_solver].
  - destruct (record_mtimes w (elements new_pdfs) cache) as [e|c] eqn:Hrec;
      [done|]. simpl. intros [= <- <-] k.
    rewrite (record_mtimes_inv _ _ _ _ Hrec k).
    destruct (decide (k ∈ new_pdfs)).
    + rewrite decide_True; [done|by apply elem_of_elements].
    + rewrite decide_False; [done|by rewrite elem_of_elements].
Qed.

Lemma rescan_records_stamps (w : World) (all_pdfs : list string)
    (wm1 wm' : TokenMap) (c1 cache' : Cache) :
  rescan w all_pdfs wm1 c1 = Ok (wm', cache') →
  ∀ pdf, pdf ∈ all_pdfs →
         is_Some (mtime w pdf) ∧ modified <$> cache' !! pdf = mtime w pdf.
Proof.
  unfold rescan.
  destruct (scan_modified w c1 all_pdfs ∅) as [e|M] eqn:HM; [done|]. simpl.
  pose proof (scan_modified_listed _ _ _ _ _ HM) as Hstat.
  pose proof (scan_modified_inv _ _ _ _ _ HM) as HMspec.
  assert (∀ k, k ∈ all_pdfs → k ∉ M → modified <$> c1 !! k = mtime w k) as Hfresh.
  { intros k Hk HkM. destruct (decide (modified <$> c1 !! k = mtime w k)); [done|].
    destruct HkM. apply HMspec. by right. }
  case_decide as Hempty.
  - intros [= <- <-] pdf Hin. split; [auto|]. apply Hfresh; [done|set_solver].
  - destruct (pdf_check_deleted M wm1 c1) as [e|[wm3 c3]] eqn:Hdel; [done|].
    simpl. intros Hadd pdf Hin. split; [auto|].
    destruct (pdf_check_deleted_inv _ _ _ _ _ Hdel) as (_ & Hc3 & _).
    rewrite (pdf_check_add_cache_inv _ _ _ _ _ _ Hadd).
    case_decide as HkM; [apply modified_stamp|].
    rewrite Hc3, decide_False by done. by apply Hfresh.
Qed.

Lemma checkpoint_update_records_stamps (w : World) (d : Disk)
    (word_map : TokenMap) (cache' : Cache) :
  checkpoint_update w d = Ok (word_map, cache') →
  ∃ names, listdir w = Some names ∧
    ∀ pdf, pdf ∈ names → is_pdf pdf = true →
           is_Some (mtime w pdf) ∧ modified <$> cache' !! pdf = mtime w pdf.
Proof.
  unfold checkpoint_update, os_listdir, load_cache, load_existing_word_map_json.
  destruct (listdir w) as [names|]; [|done]. simpl.
  intros Hup. exists names. split; [done|]. intros pdf Hin Hpdf.
  assert (pdf ∈ filter (λ f, is_pdf f = true) names) as Hin'
    by (by apply list_elem_of_filter).
  revert Hup.
  destruct (scan_cache_json d) as [| |cache0]; simpl; [|done|];
    (destruct (word_map_json d) as [| |data]; simpl; [|done|]).
  all: try (intros (_ & Hc & Hstat)%full_index_inv;
            split; [auto|]; rewrite Hc, decide_True by done;
            apply modified_stamp).
  all: rewrite incremental_split;
    match goal with
    | |- context [first_pass ?a ?b ?c ?e] =>
        destruct (first_pass a b c e) as [e1|[wm1 c1]]
    end; simpl; [done|]; intros Hre; by eapply rescan_records_stamps.
Qed.

Lemma build_completed (w : World) (d d' : Disk) (b : bool) :
  build_word_map_with_cache w d = (d', Ok b) →
  ∃ word_map cache,
    checkpoint_update w d = Ok (word_map, cache) ∧
    d' = {| word_map_json := Content (to_json word_map);
            scan_cache_json := Content cache |} ∧
    output_writable w = true ∧ cache_writable w = true ∧ b = true.
Proof.
  rewrite build_word_map_with_cache_unfold.
  destruct (checkpoint_update w d) as [e|[wm c]]; [done|].
  destruct (output_writable w); [|by destruct (output_truncated w)].
  destruct (cache_writable w); [|by destruct (cache_truncated w)].
  intros [= <- <-]. eauto 10.
Qed.

Lemma run_records_stamps_aux (w : World) (d d' : Disk) (b : bool) :
  build_word_map_with_cache w d = (d', Ok b) →
  ∃ names cache',
    listdir w = Some names ∧ scan_cache_json d' = Content cache' ∧
    ∀ pdf, pdf ∈ names → is_pdf pdf = true →
           is_Some (cache' !! pdf) ∧ modified <$> cache' !! pdf = mtime w pdf.
Proof.
  intros (wm & c & Hup & -> & _)%build_completed.
  destruct (checkpoint_update_records_stamps _ _ _ _ Hup) as (names & Hls & Hst).
  exists names, c. split; [done|]. split; [done|].
  intros pdf Hin Hpdf. destruct (Hst pdf Hin Hpdf) as [[x Hx] Hm].
  split; [|done]. rewrite Hx in Hm. by destruct (c !! pdf).
Qed.

(** X11.  After every run that completes, every listed PDF is a key of the
    persisted cache, with the time stamp the file has on disk. *)
Theorem run_records_current_stamps (w : World) (d d' : Disk) (b : bool) :
  build_word_map_with_cache w d = (d', Ok b) →
  ∃ names cache',
    listdir w = Some names ∧ scan_cache_json d' = Content cache' ∧
    ∀ pdf, pdf ∈ names → is_pdf pdf = true →
           is_Some (cache' !! pdf) ∧ modified <$> cache' !! pdf = mtime w pdf.
Proof. apply run_records_stamps_aux. Qed.

Lemma incremental_unchanged (w : World) (all_pdfs : list string)
    (word_map : TokenMap) (cache : Cache) :
  dom cache = list_to_set all_pdfs →
  (∀ pdf, pdf ∈ all_pdfs → modified <$> cache !! pdf = mtime w pdf) →
  incremental w all_pdfs word_map cache = Ok (word_map, cache).
Proof.
  intros Hdom Hstamps. rewrite incremental_split. unfold first_pass.
  rewrite Hdom. rewrite decide_False by lia. rewrite decide_False by lia.
  simpl. unfold rescan.
  destruct (scan_modified_total w cache all_pdfs ∅) as [M HM].
  { intros pdf Hin. rewrite <-(Hstamps _ Hin).
    assert (pdf ∈ dom cache) as [e ->]%elem_of_dom; [|done].
    rewrite Hdom. by apply elem_of_list_to_set. }
  rewrite HM. simpl. rewrite decide_True; [done|].
  apply set_eq. intros k. rewrite (scan_modified_inv _ _ _ _ _ HM).
  split; [|set_solver]. intros [?|[Hk Hne]]; [done|]. by destruct Hne; auto.
Qed.

Lemma unchanged_folder_run (w : World) (d : Disk)
    (names : list string) (data : IndexJSON) (cache : Cache) :
  listdir w = Some names →
  word_map_json d = Content data →
  well_formed data →
  scan_cache_json d = Content cache →
  dom cache = list_to_set (filter (λ f, is_pdf f = true) names) →
  (∀ pdf, pdf ∈ names → is_pdf pdf = true →
          modified <$> cache !! pdf = mtime w pdf) →
  output_writable w = true →
  cache_writable w = true →
  checkpoint_update w d = Ok (from_json data, cache) ∧
  build_word_map_with_cache w d = (d, Ok true).
Proof.
  intros Hls Hif Hwf Hcf Hdom Hst How Hcw.
  assert (checkpoint_update w d = Ok (from_json data, cache)) as Hup.
  { unfold checkpoint_update, os_listdir, load_cache,
      load_existing_word_map_json. rewrite Hls, Hcf, Hif. simpl.
    apply incremental_unchanged; [done|].
    intros pdf [Hpdf Hin]%list_elem_of_filter. by apply Hst. }
  split; [done|].
  rewrite build_word_map_with_cache_unfold, Hup, How, Hcw.
  rewrite to_json_from_json by done. destruct d; simpl in *. by subst.
Qed.

(** X12.  A run on a folder that did not change since the checkpoint was
    written (the keys of the cache are the listed PDFs, each with the time
    stamp on disk, and the index file is of the form the program writes)
    extracts nothing and writes both files back with the values they
    had. *)
Theorem unchanged_folder_run_is_identity (w : World) (d : Disk)
    (names : list string) (data : IndexJSON) (cache : Cache) :
  listdir w = Some names →
  word_map_json d = Content data →
  well_formed data →
  scan_cache_json d = Content cache →
  dom cache = list_to_set (filter (λ f, is_pdf f = true) names) →
  (∀ pdf, pdf ∈ names → is_pdf pdf = true →
          modified <$> cache !! pdf = mtime w pdf) →
  output_writable w = true →
  cache_writable w = true →
  checkpoint_update w d = Ok (from_json data, cache) ∧
  build_word_map_with_cache w d = (d, Ok true).
Proof. apply unchanged_folder_run. Qed.

(** X13.  If the cache persisted by a completed run has no key outside the
    listed PDFs, a second run on the same folder writes both files back
    with the values the first run gave them. *)
Theorem second_run_identical (w : World) (d d1 : Disk) (b : bool)
    (names : list string) (cache1 : Cache) :
  build_word_map_with_cache w d = (d1, Ok b) →
  listdir w = Some names →
  scan_cache_json d1 = Content cache1 →
  (∀ k, k ∈ dom cache1 → k ∈ names ∧ is_pdf k = true) →
  build_word_map_with_cache w d1 = (d1, Ok true).
Proof.
  intros Hrun Hls Hc1 Hkeys.
  destruct (run_records_stamps_aux w d d1 b Hrun) as (names' & c & Hls' & Hc & Hst).
  assert (names' = names) as -> by congruence.
  assert (c = cache1) as -> by congruence.
  apply build_completed in Hrun as (wm & c' & _ & -> & How & Hcw & _).
  simpl in Hc. injection Hc as ->.
  eapply unchanged_folder_run; try done.
  - apply well_formed_to_json.
  - apply set_eq. intros k. rewrite elem_of_list_to_set, list_elem_of_filter.
    split.
    + intros Hk. destruct (Hkeys _ Hk). done.
    + intros [Hpdf Hin]. apply elem_of_dom. by apply Hst.
  - intros pdf Hin Hpdf. by apply Hst.
Qed.

(** ** What the next run loads *)

Lemma no_empty_set_extract_all (w : World) (pdfs : list string) :
  yields_all w →
  no_empty_set (merge_token_maps
                  (as_completed w (extract_tokens_from_pdf w <$> pdfs))).
Proof.
  intros Hw. apply no_empty_set_merge_from; [|apply no_empty_set_empty].
  intros tm Htm. rewrite (Hw _) in Htm.
  apply list_elem_of_fmap in Htm as (pdf & -> & _). apply no_empty_set_extract.
Qed.

Lemma no_empty_set_pdf_check_add (w : World) (new_pdfs : gset string)
    (word_map word_map' : TokenMap) (cache cache' : Cache) :
  yields_all w → no_empty_set word_map →
  pdf_check_add w new_pdfs word_map cache = Ok (word_map', cache') →
  no_empty_set word_map'.
Proof.
  intros Hw Hne. unfold pdf_check_add. case_decide; [by intros [= <- _]|].
  destruct (record_mtimes w (elements new_pdfs) cache); [done|]. simpl.
  intros [= <- _]. apply no_empty_set_update_all; [|done].
  by apply no_empty_set_extract_all.
Qed.

Lemma no_empty_set_pdf_check_deleted (deleted_pdfs : gset string)
    (word_map word_map' : TokenMap) (cache cache' : Cache) :
  no_empty_set word_map →
  pdf_check_deleted deleted_pdfs word_map cache = Ok (word_map', cache') →
  no_empty_set word_map'.
Proof.
  intros Hne. unfold pdf_check_deleted. case_decide; [by intros [= <- _]|].
  destruct (del_all (elements deleted_pdfs) cache); [done|]. simpl.
  intros [= <- _] t locs. rewrite lookup_purge_all. unfold purged.
  destruct (word_map !! t); [|done]. case_decide; [done|]. by intros [= <-].
Qed.

Lemma no_empty_set_incremental (w : World) (all_pdfs : list string)
    (word_map word_map' : TokenMap) (cache cache' : Cache) :
  yields_all w → no_empty_set word_map →
  incremental w all_pdfs word_map cache = Ok (word_map', cache') →
  no_empty_set word_map'.
Proof.
  intros Hw Hne. rewrite incremental_split.
  destruct (first_pass w all_pdfs word_map cache) as [e|[wm1 c1]] eqn:H1;
    simpl; [done|].
  assert (no_empty_set wm1) as Hne1.
  { revert H1. unfold first_pass. repeat case_decide.
    - by apply no_empty_set_pdf_check_add.
    - by apply no_empty_set_pdf_check_deleted.
    - by intros [= <- _]. }
  unfold rescan. destruct (scan_modified w c1 all_pdfs ∅) as [e|M]; simpl; [done|].
  case_decide; [by intros [= <- _]|].
  destruct (pdf_check_deleted M wm1 c1) as [e|[wm3 c3]] eqn:H3; simpl; [done|].
  apply no_empty_set_pdf_check_add; [done|].
  by eapply no_empty_set_pdf_check_deleted.
Qed.

Lemma no_empty_set_checkpoint_update (w : World) (d : Disk)
    (word_map : TokenMap) (cache : Cache) :
  yields_all w →
  checkpoint_update w d = Ok (word_map, cache) →
  no_empty_set word_map.
Proof.
  intros Hw.
  unfold checkpoint_update, os_listdir, load_cache, load_existing_word_map_json.
  destruct (listdir w) as [names|]; [|done]. simpl.
  destruct (scan_cache_json d) as [| |cache0]; simpl; [|done|];
    (destruct (word_map_json d) as [| |data]; simpl; [|done|]).
  all: try (intros (-> & _)%full_index_inv; by apply no_empty_set_extract_all).
  all: apply no_empty_set_incremental; [done|].
  all: apply no_empty_set_from_json.
Qed.

(** X14.  After a run that completes, loading the two files gives back the
    word map and the cache the run held in memory when it saved them. *)
Theorem reload_gives_memory_state (w : World) (d d' : Disk) (b : bool) :
  yields_all w →
  build_word_map_with_cache w d = (d', Ok b) →
  ∃ word_map cache,
    checkpoint_update w d = Ok (word_map, cache) ∧
    load_existing_word_map_json d' = (d', Ok word_map) ∧
    load_cache d' = (d', Ok cache).
Proof.
  intros Hw (wm & c & Hup & -> & _)%build_completed.
  exists wm, c. split; [done|].
  unfold load_existing_word_map_json, load_cache. simpl.
  rewrite from_json_to_json; [done|]. by eapply no_empty_set_checkpoint_update.
Qed.

(** ** When the run raises [KeyError] *)

Lemma record_mtimes_raise_inv (w : World) (pdfs : list string) :
  ∀ (cache : Cache) e,
    record_mtimes w pdfs cache = Raise e → ∃ pdf, e = FileNotFoundError pdf.
Proof.
  induction pdfs as [|pdf rest IHr]; intros cache e; simpl; [done|].
  unfold getmtime. destruct (mtime w pdf); simpl; [apply IHr|].
  intros [= <-]. eauto.
Qed.

Lemma scan_modified_raise_inv (w : World) (cache : Cache) (pdfs : list string) :
  ∀ (acc : gset string) e,
    scan_modified w cache pdfs acc = Raise e → ∃ pdf, e = FileNotFoundError pdf.
Proof.
  induction pdfs as [|pdf rest IHr]; intros acc e; simpl; [done|].
  unfold getmtime. destruct (mtime w pdf); simpl; [apply IHr|].
  intros [= <-]. eauto.
Qed.

Lemma pdf_check_add_raise_inv (w : World) (new_pdfs : gset string)
    (word_map : TokenMap) (cache : Cache) e :
  pdf_check_add w new_pdfs word_map cache = Raise e →
  ∃ pdf, e = FileNotFoundError pdf.
Proof.
  unfold pdf_check_add. case_decide; [done|].
  destruct (record_mtimes w (elements new_pdfs) cache) eqn:Hrec; simpl; [|done].
  intros [= <-]. by eapply record_mtimes_raise_inv.
Qed.

Lemma del_all_raise_inv (pdfs : list string) :
  ∀ (cache : Cache) e,
    NoDup pdfs → del_all pdfs cache = Raise e →
    ∃ k, e = KeyError k ∧ k ∈ pdfs ∧ cache !! k = None.
Proof.
  induction pdfs as [|pdf rest IHr]; intros cache e Hnd; simpl; [done|].
  apply NoDup_cons in Hnd as [Hnotin Hnd].
  destruct (cache !! pdf) as [x|] eqn:Hx.
  - intros (k & -> & Hk & Hnone)%IHr; [|done].
    exists k. split; [done|]. split; [by right|].
    rewrite lookup_delete_ne in Hnone; [done|]. by intros ->.
  - intros [= <-]. exists pdf. split; [done|]. split; [left|done].
Qed.

Lemma pdf_check_deleted_raise_inv (deleted_pdfs : gset string)
    (word_map : TokenMap) (cache : Cache) e :
  pdf_check_deleted deleted_pdfs word_map cache = Raise e →
  ∃ k, e = KeyError k ∧ k ∈ deleted_pdfs ∧ cache !! k = None.
Proof.
  unfold pdf_check_deleted. case_decide; [done|].
  destruct (del_all (elements deleted_pdfs) cache) eqn:Hdel; simpl; [|done].
  intros [= <-].
  destruct (del_all_raise_inv _ _ _ (NoDup_elements _) Hdel) as (k & -> & Hk & Hn).
  exists k. split; [done|]. split; [by apply elem_of_elements|done].
Qed.

Lemma incremental_key_error_inv (w : World) (all_pdfs : list string)
    (word_map : TokenMap) (cache : Cache) (k : string) :
  incremental w all_pdfs word_map cache = Raise (KeyError k) →
  k ∈ all_pdfs ∧ cache !! k = None ∧
  (size (list_to_set all_pdfs : gset string) ≤ size (dom cache))%nat.
Proof.
  rewrite incremental_split. unfold first_pass.
  set (m := Z.of_nat _ - Z.of_nat _).
  destruct (decide (m > 0)) as [Hpos|Hnpos].
  - (* after the add pass every listed document is cached *)
    destruct (pdf_check_add w _ word_map cache) as [e|[wm1 c1]] eqn:Hadd; simpl.
    { intros [= ->]. by apply pdf_check_add_raise_inv in Hadd as [? [=]]. }
    unfold rescan.
    destruct (scan_modified w c1 all_pdfs ∅) as [e|M] eqn:HM; simpl.
    { intros [= ->]. by apply scan_modified_raise_inv in HM as [? [=]]. }
    case_decide; [done|].
    destruct (pdf_check_deleted M wm1 c1) as [e|[wm3 c3]] eqn:Hdel; simpl.
    + intros [= ->]. exfalso.
      apply pdf_check_deleted_raise_inv in Hdel as (k' & [= <-] & Hk & Hnone).
      apply (scan_modified_inv _ _ _ _ _ HM) in Hk as [?|[Hk _]]; [set_solver|].
      rewrite (pdf_check_add_cache_inv _ _ _ _ _ _ Hadd) in Hnone.
      destruct (scan_modified_listed _ _ _ _ _ HM _ Hk) as [x Hx].
      case_decide as Hnew; [by rewrite Hx in Hnone|].
      apply Hnew. apply elem_of_difference. split; [by apply elem_of_list_to_set|].
      by apply not_elem_of_dom.
    + intros Hadd2. by apply pdf_check_add_raise_inv in Hadd2 as [? [=]].
  - assert (∃ wm1 c1,
              (if decide (m < 0)
               then pdf_check_deleted (dom cache ∖ list_to_set all_pdfs)
                      word_map cache
               else Ok (word_map, cache)) = Ok (wm1, c1) ∧
              ∀ x, x ∈ all_pdfs → c1 !! x = cache !! x)
      as (wm1 & c1 & -> & Hc1).
    { case_decide; [|eauto].
      destruct (pdf_check_deleted_total (dom cache ∖ list_to_set all_pdfs)
                  word_map cache) as [[wm1 c1] Hdel].
      { intros x [Hx _]%elem_of_difference. by apply elem_of_dom. }
      exists wm1, c1. split; [done|]. intros x Hx.
      destruct (pdf_check_deleted_inv _ _ _ _ _ Hdel) as (_ & -> & _).
      rewrite decide_False; [done|]. set_solver. }
    simpl. unfold rescan.
    destruct (scan_modified w c1 all_pdfs ∅) as [e|M] eqn:HM; simpl.
    { intros [= ->]. by apply scan_modified_raise_inv in HM as [? [=]]. }
    case_decide; [done|].
    destruct (pdf_check_deleted M wm1 c1) as [e|[wm3 c3]] eqn:Hdel; simpl.
    + intros [= ->].
      apply pdf_check_deleted_raise_inv in Hdel as (k' & [= <-] & Hk & Hnone).
      apply (scan_modified_inv _ _ _ _ _ HM) in Hk as [?|[Hk _]]; [set_solver|].
      split; [done|]. split; [by rewrite <-Hc1|]. unfold m in Hnpos. lia.
    + intros Hadd2. by apply pdf_check_add_raise_inv in Hadd2 as [? [=]].
Qed.

(** X15.  A run ends in [KeyError] only in one way: [word_map.json] exists,
    the folder has no more PDFs than the cache has keys, and the key is a
    listed PDF that is not in the cache.  Both files are then as they were
    before the run. *)
Theorem key_error_only_from_uncached (w : World) (d d' : Disk) (k : string) :
  build_word_map_with_cache w d = (d', Raise (KeyError k)) →
  d' = d ∧
  ∃ names data cache,
    listdir w = Some names ∧ word_map_json d = Content data ∧
    (load_cache d).2 = Ok cache ∧
    k ∈ names ∧ is_pdf k = true ∧ cache !! k = None ∧
    (size (list_to_set (filter (λ f, is_pdf f = true) names) : gset string)
     ≤ size (dom cache))%nat.
Proof.
  rewrite build_word_map_with_cache_unfold.
  destruct (checkpoint_update w d) as [e|[wm c]] eqn:Hup.
  2:{ by destruct (output_writable w), (cache_writable w),
           (output_truncated w), (cache_truncated w). }
  intros [= <- ->]. split; [done|]. revert Hup.
  unfold checkpoint_update, os_listdir, load_cache, load_existing_word_map_json.
  destruct (listdir w) as [names|]; [|done]. simpl.
  destruct (scan_cache_json d) as [| |cache0]; simpl; [|done|];
    (destruct (word_map_json d) as [| |data]; simpl; [|done|]).
  all: try (unfold full_index;
            match goal with
            | |- context [record_mtimes ?a ?b ?c] =>
                destruct (record_mtimes a b c) eqn:Hrec
            end; simpl; [|done]; intros [= ->];
            by apply record_mtimes_raise_inv in Hrec as [? [=]]).
  all: intros (Hk & Hnone & Hsize)%incremental_key_error_inv;
    apply list_elem_of_filter in Hk as [Hpdf Hk];
    eexists names, data, _; repeat split; done.
Qed.

(** ** A cold start over an old cache *)

(** X16.  A cold start does not reset the cache: the persisted cache keeps
    every entry of the loaded one whose key is not a listed PDF. *)
Theorem cold_start_keeps_old_cache_entries (w : World) (d d' : Disk) (b : bool)
    (names : list string) (cache0 : Cache) :
  word_map_json d = Absent →
  scan_cache_json d = Content cache0 →
  listdir w = Some names →
  build_word_map_with_cache w d = (d', Ok b) →
  ∃ cache',
    scan_cache_json d' = Content cache' ∧
    dom cache' = dom cache0 ∪ list_to_set (filter (λ f, is_pdf f = true) names) ∧
    ∀ k, k ∉ filter (λ f, is_pdf f = true) names → cache' !! k = cache0 !! k.
Proof.
  intros Hif Hcf Hls (wm & c & Hup & -> & _)%build_completed.
  exists c. split; [done|]. revert Hup.
  unfold checkpoint_update, os_listdir, load_cache. rewrite Hls, Hcf, Hif. simpl.
  intros (_ & Hc & Hstat)%full_index_inv. split.
  - apply set_eq. intros k.
    rewrite elem_of_union, !elem_of_dom, elem_of_list_to_set, Hc.
    case_decide as Hk; [|naive_solver].
    destruct (Hstat _ Hk) as [x ->]. simpl. naive_solver.
  - intros k Hk. rewrite Hc. by rewrite decide_False.
Qed.

(** ** A folder that grew *)

(** X17.  When the folder has more PDFs than the cache has keys, a run that
    returns has purged nothing for the documents that left the folder:
    every key of the cache is still a key, the entries of the documents
    that are not listed are untouched, and so are their occurrences in the
    index. *)
Theorem grown_folder_keeps_removed_documents (w : World) (all_pdfs : list string)
    (word_map word_map' : TokenMap) (cache cache' : Cache) :
  yields_all w →
  (size (dom cache) < size (list_to_set all_pdfs : gset string))%nat →
  incremental w all_pdfs word_map cache = Ok (word_map', cache') →
  (∀ k, is_Some (cache !! k) → is_Some (cache' !! k))
  ∧ (∀ k, k ∉ all_pdfs → cache' !! k = cache !! k)
  ∧ ∀ t f p, occurs word_map t f p → f ∉ all_pdfs → occurs word_map' t f p.
Proof.
  intros Hw Hsize. rewrite incremental_split. unfold first_pass.
  rewrite decide_True by lia.
  destruct (pdf_check_add w _ word_map cache) as [e|[wm1 c1]] eqn:Hadd;
    simpl; [done|].
  intros Hre.
  destruct (pdf_check_add_inv _ _ _ _ _ _ Hw Hadd) as [Hocc1 Hc1].
  destruct (rescan_inv _ _ _ _ _ _ Hw Hre) as (M & HM & Hstat & _ & Hocc & Hc).
  assert (∀ k, k ∉ all_pdfs → cache' !! k = cache !! k) as Hother.
  { intros k Hk. rewrite Hc, decide_False by (rewrite HM; tauto).
    rewrite Hc1, decide_False; [done|].
    rewrite elem_of_difference, elem_of_list_to_set. tauto. }
  split; [|split; [done|]].
  - intros k Hk. destruct (decide (k ∈ all_pdfs)) as [Hin|Hout].
    + rewrite Hc. case_decide.
      * by destruct (Hstat _ Hin) as [x ->].
      * rewrite Hc1. case_decide; [|done]. by destruct (Hstat _ Hin) as [x ->].
    + by rewrite Hother.
  - intros t f p Ho Hf. apply Hocc. left. split; [|rewrite HM; tauto].
    apply Hocc1. by left.
Qed.

(** ** The file name filter *)

Lemma substring_0_length (s : string) : substring 0 (String.length s) s = s.
Proof. induction s as [|c s IHs]; simpl; [done|]. by rewrite IHs. Qed.

Lemma substring_split (s : string) :
  ∀ i : nat, (i ≤ String.length s)%nat →
    s = substring 0 i s +:+ substring i (String.length s - i) s.
Proof.
  induction s as [|c s IHs]; intros i Hi; simpl in *.
  - by replace i with 0%nat by lia.
  - destruct i as [|i]; simpl.
    + by rewrite substring_0_length.
    + change (String c s = String c (substring 0 i s +:+
                substring i (String.length s - i) s)).
      f_equal. apply IHs. lia.
Qed.

Lemma substring_append_suffix (pre suf : string) :
  substring (String.length pre) (String.length suf) (pre +:+ suf) = suf.
Proof.
  induction pre as [|c pre IHp]; simpl; [apply substring_0_length|done].
Qed.

Lemma length_append (a b : string) :
  String.length (a +:+ b) = (String.length a + String.length b)%nat.
Proof. induction a as [|c a IHa]; simpl; [done|]. by rewrite IHa. Qed.

Lemma length_lower (s : string) : String.length (lower s) = String.length s.
Proof. induction s as [|c s IHs]; simpl; [done|]. by rewrite IHs. Qed.

Lemma lower_append (a b : string) : lower (a +:+ b) = lower a +:+ lower b.
Proof. induction a as [|c a IHa]; simpl; [done|]. by rewrite IHa. Qed.

Lemma lower_substring (s : string) :
  ∀ i m : nat, substring i m (lower s) = lower (substring i m s).
Proof.
  induction s as [|c s IHs]; intros [|i] [|m]; simpl; rewrite ?IHs; done.
Qed.

(** X18.  [f.lower().endswith(".pdf")] accepts exactly the names that end
    in four characters whose lower-case form is [.pdf], whatever the case
    of the name (names are strings of 8-bit characters, [lower] folds
    A-Z). *)
Theorem is_pdf_spec (f : string) :
  is_pdf f = true ↔ ∃ stem ext, f = stem +:+ ext ∧ lower ext = ".pdf".
Proof.
  unfold is_pdf, endswith. rewrite andb_true_iff, Nat.leb_le, String.eqb_eq.
  rewrite length_lower. split.
  - intros [Hlen Hsub]. rewrite lower_substring in Hsub.
    exists (substring 0 (String.length f - 4) f),
           (substring (String.length f - 4) 4 f).
    split; [|done]. simpl in Hlen.
    rewrite (substring_split f (String.length f - 4)) at 1 by lia.
    do 2 f_equal. lia.
  - intros (stem & ext & -> & Hext).
    assert (String.length ext = 4%nat) as Hl4.
    { by rewrite <-(length_lower ext), Hext. }
    rewrite length_append, Hl4. simpl. split; [lia|].
    replace (String.length stem + 4 - 4)%nat with (String.length (lower stem))
      by (rewrite length_lower; lia).
    rewrite lower_append, Hext.
    apply (substring_append_suffix (lower stem) ".pdf").
Qed.

(** ** When the run completes *)

Lemma incremental_total (w : World) (all_pdfs : list string)
    (word_map : TokenMap) (cache : Cache) :
  (∀ pdf, pdf ∈ all_pdfs → is_Some (mtime w pdf)) →
  ((size (dom cache) < size (list_to_set all_pdfs : gset string))%nat ∨
   ∀ pdf, pdf ∈ all_pdfs → is_Some (cache !! pdf)) →
  ∃ r, incremental w all_pdfs word_map cache = Ok r.
Proof.
  intros Hstat Hcase. rewrite incremental_split. unfold first_pass.
  set (m := Z.of_nat _ - Z.of_nat _).
  assert (∃ wm1 c1,
            (if decide (m > 0)
             then pdf_check_add w (list_to_set all_pdfs ∖ dom cache)
                    word_map cache
             else if decide (m < 0)
                  then pdf_check_deleted (dom cache ∖ list_to_set all_pdfs)
                         word_map cache
                  else Ok (word_map, cache)) = Ok (wm1, c1) ∧
            ∀ k, k ∈ all_pdfs → is_Some (c1 !! k)) as (wm1 & c1 & -> & Hc1).
  { case_decide as Hpos; [|case_decide as Hneg].
    - destruct (pdf_check_add_total w (list_to_set all_pdfs ∖ dom cache)
                  word_map cache) as [[wm1 c1] Hadd].
      { intros pdf [Hin _]%elem_of_difference. apply Hstat.
        by apply elem_of_list_to_set in Hin. }
      exists wm1, c1. split; [done|]. intros k Hk.
      rewrite (pdf_check_add_cache_inv _ _ _ _ _ _ Hadd).
      case_decide as Hnew; [by destruct (Hstat _ Hk) as [x ->]|].
      apply elem_of_dom. destruct (decide (k ∈ dom cache)); [done|].
      destruct Hnew. apply elem_of_difference.
      split; [by apply elem_of_list_to_set|done].
    - destruct Hcase as [Hlt|Hcached]; [unfold m in Hpos; lia|].
      destruct (pdf_check_deleted_total (dom cache ∖ list_to_set all_pdfs)
                  word_map cache) as [[wm1 c1] Hdel].
      { intros k [Hk _]%elem_of_difference. by apply elem_of_dom. }
      exists wm1, c1. split; [done|]. intros k Hk.
      destruct (pdf_check_deleted_inv _ _ _ _ _ Hdel) as (_ & -> & _).
      rewrite decide_False; [auto|].
      rewrite elem_of_difference, elem_of_list_to_set. tauto.
    - destruct Hcase as [Hlt|Hcached]; [unfold m in Hpos; lia|]. eauto. }
  simpl. by apply rescan_total.
Qed.

(** X19.  A run completes when the folder can be listed, neither file is
    unreadable, every listed PDF has a readable time stamp, both files can
    be written, and either there is no index, or the folder has more PDFs
    than the cache has keys, or every listed PDF is a key of the cache. *)
Theorem run_completes (w : World) (d : Disk) (names : list string)
    (cache : Cache) :
  listdir w = Some names →
  (load_cache d).2 = Ok cache →
  word_map_json d ≠ Corrupt →
  (∀ pdf, pdf ∈ names → is_pdf pdf = true → is_Some (mtime w pdf)) →
  output_writable w = true →
  cache_writable w = true →
  (word_map_json d = Absent
   ∨ (size (dom cache)
      < size (list_to_set (filter (λ f, is_pdf f = true) names) : gset string))%nat
   ∨ ∀ pdf, pdf ∈ names → is_pdf pdf = true → is_Some (cache !! pdf)) →
  ∃ d', build_word_map_with_cache w d = (d', Ok true).
Proof.
  intros Hls Hcache Hif Hstat How Hcw Hcase.
  assert (∀ pdf, pdf ∈ filter (λ f, is_pdf f = true) names →
                 is_Some (mtime w pdf)) as Hstat'.
  { intros pdf [Hpdf Hin]%list_elem_of_filter. by apply Hstat. }
  assert (∃ r, checkpoint_update w d = Ok r) as [[wm c] Hup].
  { unfold checkpoint_update, os_listdir. rewrite Hls, Hcache. simpl.
    unfold load_existing_word_map_json.
    destruct (word_map_json d) as [| |data] eqn:Hd; simpl; [|done|].
    - unfold full_index.
      destruct (record_mtimes_total w _ cache Hstat') as [c ->]. simpl. eauto.
    - apply incremental_total; [done|].
      destruct Hcase as [?|[Hlt|Hcached]]; [done|by left|right].
      intros pdf [Hpdf Hin]%list_elem_of_filter. by apply Hcached. }
  rewrite build_word_map_with_cache_unfold, Hup, How, Hcw. eauto.
Qed.

(** ** Instances of the further properties *)

Lemma index_AB_well_formed : well_formed index_AB.
Proof.
  assert (index_AB = to_json word_map_AB) as -> by (vm_compute; reflexivity).
  apply well_formed_to_json.
Qed.

Lemma extracted_occurrences_in_range_witness :
  "A.pdf" = "A.pdf" ∧
  ∃ doc page tokens,
    fitz_open (sample_world [] true) "A.pdf" = Some doc ∧
    1 ≤ 1 ≤ Z.of_nat (List.length doc) ∧
    doc !! Z.to_nat (1 - 1) = Some page ∧
    page_tokens page = Some tokens ∧ "y" ∈ tokens.
Proof.
  apply (extracted_occurrences_in_range (sample_world [] true) "A.pdf" "y").
  apply occurs_extract. split; [done|]. eexists _, 0%nat, _.
  split; [reflexivity|]. split; [reflexivity|]. split; [|done].
  right. left.
Defined.

Lemma complete_extraction_witness :
  occurs (extract_tokens_from_pdf (sample_world [] true) "A.pdf") "y" "A.pdf" 1 ↔
  "A.pdf" = "A.pdf" ∧
  ∃ doc (i : nat) page tokens,
    fitz_open (sample_world [] true) "A.pdf" = Some doc ∧ doc !! i = Some page ∧
    page_tokens page = Some tokens ∧ "y" ∈ tokens ∧ 1 = Z.of_nat i + 1.
Proof.
  apply (complete_extraction (sample_world [] true) "A.pdf" "y" "A.pdf" 1).
  vm_compute. reflexivity.
Defined.

Lemma save_then_load_witness :
  scan_cache_json checkpoint_AB = scan_cache_json checkpoint_AB ∧
  word_map_json checkpoint_AB = Content (to_json word_map_AB) ∧
  well_formed (to_json word_map_AB) ∧
  ∃ word_map',
    load_existing_word_map_json checkpoint_AB = (checkpoint_AB, Ok word_map') ∧
    no_empty_set word_map' ∧
    (∀ t f p, occurs word_map' t f p ↔ occurs word_map_AB t f p) ∧
    (no_empty_set word_map_AB → word_map' = word_map_AB).
Proof.
  apply (save_then_load (sample_world [] true) word_map_AB checkpoint_AB
           checkpoint_AB).
  vm_compute. reflexivity.
Defined.

Lemma load_then_save_witness :
  ∃ word_map,
    load_existing_word_map_json checkpoint_AB = (checkpoint_AB, Ok word_map) ∧
    save_word_map_json (sample_world [] true) word_map checkpoint_AB
    = (checkpoint_AB, Ok ()).
Proof.
  apply (load_then_save (sample_world [] true) checkpoint_AB index_AB).
  - reflexivity.
  - apply index_AB_well_formed.
  - reflexivity.
Defined.

Lemma scan_modified_selects_stale_witness :
  (∃ modified_pdfs,
     scan_modified (sample_world ["A.pdf"; "C.pdf"] true) cache_AB
       ["A.pdf"; "C.pdf"] ∅ = Ok modified_pdfs ∧
     ∀ pdf, pdf ∈ modified_pdfs ↔
            pdf ∈ ["A.pdf"; "C.pdf"] ∧
            modified <$> cache_AB !! pdf
            ≠ mtime (sample_world ["A.pdf"; "C.pdf"] true) pdf)
  ∧ ∃ pdf, pdf ∈ ["A.pdf"; "ghost.pdf"] ∧ mtime ghost_world pdf = None ∧
           scan_modified ghost_world cache_AB ["A.pdf"; "ghost.pdf"] ∅
           = Raise (FileNotFoundError pdf).
Proof.
  split.
  - apply (proj1 (scan_modified_selects_stale
                    (sample_world ["A.pdf"; "C.pdf"] true) cache_AB
                    ["A.pdf"; "C.pdf"])).
    intros pdf [->|[->|[]%elem_of_nil]%elem_of_cons]%elem_of_cons;
      vm_compute; eauto.
  - apply (proj2 (scan_modified_selects_stale ghost_world cache_AB
                    ["A.pdf"; "ghost.pdf"])).
    exists "ghost.pdf". split; [repeat constructor|]. vm_compute. reflexivity.
Defined.

Lemma cache_AB_keys (k : string) :
  is_Some (cache_AB !! k) → k = "A.pdf" ∨ k = "B.pdf".
Proof.
  intros Hk. destruct (decide (k = "A.pdf")); [by left|].
  destruct (decide (k = "B.pdf")); [by right|]. exfalso.
  unfold cache_AB in Hk.
  rewrite lookup_insert_ne, lookup_singleton_ne in Hk by done.
  by destruct Hk.
Qed.

Lemma pdf_check_deleted_purges_witness :
  ∃ word_map' cache',
    pdf_check_deleted {[ "B.pdf" ]} word_map_AB cache_AB = Ok (word_map', cache')
    ∧ (∀ t f p, occurs word_map' t f p ↔
                occurs word_map_AB t f p ∧ f ∉ ({[ "B.pdf" ]} : gset string))
    ∧ dom cache' = dom cache_AB ∖ {[ "B.pdf" ]}
    ∧ (∀ k, k ∉ ({[ "B.pdf" ]} : gset string) → cache' !! k = cache_AB !! k)
    ∧ (({[ "B.pdf" ]} : gset string) ≠ ∅ → no_empty_set word_map')
    ∧ (({[ "B.pdf" ]} : gset string) = ∅ →
       word_map' = word_map_AB ∧ cache' = cache_AB).
Proof.
  apply (pdf_check_deleted_purges {[ "B.pdf" ]} word_map_AB cache_AB).
  intros k ->%elem_of_singleton. apply elem_of_dom. vm_compute. eauto.
Defined.

Lemma pdf_check_add_extends_witness :
  (∃ word_map' cache',
     pdf_check_add (sample_world ["C.pdf"] true) {[ "C.pdf" ]}
       word_map_AB cache_AB = Ok (word_map', cache')
     ∧ (∀ t f p, occurs word_map_AB t f p → occurs word_map' t f p)
     ∧ (∀ t, is_Some (word_map_AB !! t) → is_Some (word_map' !! t))
     ∧ dom cache' = dom cache_AB ∪ {[ "C.pdf" ]}
     ∧ (∀ pdf, pdf ∈ ({[ "C.pdf" ]} : gset string) →
               modified <$> cache' !! pdf
               = mtime (sample_world ["C.pdf"] true) pdf)
     ∧ (∀ k, k ∉ ({[ "C.pdf" ]} : gset string) → cache' !! k = cache_AB !! k))
  ∧ ∃ pdf, pdf ∈ ({[ "ghost.pdf" ]} : gset string) ∧
           mtime ghost_world pdf = None ∧
           pdf_check_add ghost_world {[ "ghost.pdf" ]} word_map_AB cache_AB
           = Raise (FileNotFoundError pdf).
Proof.
  split.
  - apply (proj1 (pdf_check_add_extends (sample_world ["C.pdf"] true)
                    {[ "C.pdf" ]} word_map_AB cache_AB)).
    intros pdf ->%elem_of_singleton. vm_compute. eauto.
  - apply (proj2 (pdf_check_add_extends ghost_world {[ "ghost.pdf" ]}
                    word_map_AB cache_AB)).
    exists "ghost.pdf". split; [by apply elem_of_singleton|].
    vm_compute. reflexivity.
Defined.

Lemma incremental_separate_changes_witness :
  ∃ word_map' cache',
    incremental (sample_world ["A.pdf"; "B.pdf"; "C.pdf"] true)
      ["A.pdf"; "B.pdf"; "C.pdf"] word_map_AB cache_AB = Ok (word_map', cache')
    ∧ occurs word_map' "z" "C.pdf" 1
    ∧ dom cache' = list_to_set ["A.pdf"; "B.pdf"; "C.pdf"].
Proof.
  destruct (incremental_separate_changes
              (sample_world ["A.pdf"; "B.pdf"; "C.pdf"] true)
              ["A.pdf"; "B.pdf"; "C.pdf"] word_map_AB cache_AB)
    as (wm' & c' & Hinc & Hocc & Hdom & _).
  - apply sample_world_yields_all.
  - intros pdf [->|[->|[->|[]%elem_of_nil]%elem_of_cons]%elem_of_cons]%elem_of_cons;
      vm_compute; eauto.
  - left. intros k [->| ->]%elem_of_dom%cache_AB_keys;
      apply elem_of_list_to_set; repeat constructor.
  - exists wm', c'. split; [done|]. split; [|done].
    apply Hocc. right. exists "C.pdf". split; [repeat constructor|].
    split; [left; vm_compute; reflexivity|].
    apply occurs_extract. split; [done|]. eexists _, 0%nat, _.
    split; [reflexivity|]. split; [reflexivity|]. split; [by left|done].
Defined.

Lemma run_records_current_stamps_witness :
  ∃ names cache',
    listdir (sample_world ["A.pdf"; "C.pdf"; "D.pdf"] true) = Some names ∧
    scan_cache_json checkpoint_ABCD = Content cache' ∧
    ∀ pdf, pdf ∈ names → is_pdf pdf = true →
           is_Some (cache' !! pdf) ∧
           modified <$> cache' !! pdf
           = mtime (sample_world ["A.pdf"; "C.pdf"; "D.pdf"] true) pdf.
Proof.
  apply (run_records_current_stamps
           (sample_world ["A.pdf"; "C.pdf"; "D.pdf"] true)
           checkpoint_AB checkpoint_ABCD true).
  vm_compute. reflexivity.
Defined.

Lemma unchanged_folder_run_is_identity_witness :
  checkpoint_update (sample_world ["A.pdf"; "B.pdf"; "notes.txt"] true)
    checkpoint_AB = Ok (from_json index_AB, cache_AB) ∧
  build_word_map_with_cache (sample_world ["A.pdf"; "B.pdf"; "notes.txt"] true)
    checkpoint_AB = (checkpoint_AB, Ok true).
Proof.
  apply (unchanged_folder_run_is_identity
           (sample_world ["A.pdf"; "B.pdf"; "notes.txt"] true) checkpoint_AB
           ["A.pdf"; "B.pdf"; "notes.txt"] index_AB cache_AB).
  - reflexivity.
  - reflexivity.
  - apply index_AB_well_formed.
  - reflexivity.
  - vm_compute. reflexivity.
  - intros pdf [->|[->|[->|[]%elem_of_nil]%elem_of_cons]%elem_of_cons]%elem_of_cons;
      vm_compute; done.
  - reflexivity.
  - reflexivity.
Defined.

Lemma second_run_identical_witness :
  build_word_map_with_cache (sample_world ["A.pdf"; "B.pdf"] true) checkpoint_AB
  = (checkpoint_AB, Ok true).
Proof.
  apply (second_run_identical (sample_world ["A.pdf"; "B.pdf"] true)
           no_checkpoint checkpoint_AB true ["A.pdf"; "B.pdf"] cache_AB).
  - vm_compute. reflexivity.
  - reflexivity.
  - reflexivity.
  - intros k [->| ->]%elem_of_dom%cache_AB_keys;
      (split; [repeat constructor|vm_compute; reflexivity]).
Defined.

Lemma reload_gives_memory_state_witness :
  ∃ word_map cache,
    checkpoint_update (sample_world ["A.pdf"; "C.pdf"; "D.pdf"] true)
      checkpoint_AB = Ok (word_map, cache) ∧
    load_existing_word_map_json checkpoint_ABCD = (checkpoint_ABCD, Ok word_map) ∧
    load_cache checkpoint_ABCD = (checkpoint_ABCD, Ok cache).
Proof.
  apply (reload_gives_memory_state
           (sample_world ["A.pdf"; "C.pdf"; "D.pdf"] true)
           checkpoint_AB checkpoint_ABCD true).
  - apply sample_world_yields_all.
  - vm_compute. reflexivity.
Defined.

Lemma key_error_only_from_uncached_witness :
  checkpoint_AB = checkpoint_AB ∧
  ∃ names data cache,
    listdir (sample_world ["A.pdf"; "C.pdf"] true) = Some names ∧
    word_map_json checkpoint_AB = Content data ∧
    (load_cache checkpoint_AB).2 = Ok cache ∧
    "C.pdf" ∈ names ∧ is_pdf "C.pdf" = true ∧ cache !! "C.pdf" = None ∧
    (size (list_to_set (filter (λ f, is_pdf f = true) names) : gset string)
     ≤ size (dom cache))%nat.
Proof.
  apply (key_error_only_from_uncached (sample_world ["A.pdf"; "C.pdf"] true)
           checkpoint_AB checkpoint_AB "C.pdf").
  vm_compute. reflexivity.
Defined.

Lemma cold_start_keeps_old_cache_entries_witness :
  ∃ cache',
    scan_cache_json
      (build_word_map_with_cache (sample_world ["A.pdf"] true) old_cache_only).1
    = Content cache' ∧
    dom cache' = dom ({[ "Z.pdf" := {| modified := 7 |} ]} : Cache)
                 ∪ list_to_set (filter (λ f, is_pdf f = true) ["A.pdf"]) ∧
    ∀ k, k ∉ filter (λ f, is_pdf f = true) ["A.pdf"] →
         cache' !! k = ({[ "Z.pdf" := {| modified := 7 |} ]} : Cache) !! k.
Proof.
  apply (cold_start_keeps_old_cache_entries (sample_world ["A.pdf"] true)
           old_cache_only _ true ["A.pdf"]).
  - reflexivity.
  - reflexivity.
  - reflexivity.
  - vm_compute. reflexivity.
Defined.

Lemma grown_folder_keeps_removed_documents_witness :
  (∀ k, is_Some (cache_AB !! k) → is_Some (cache_ABCD !! k))
  ∧ (∀ k, k ∉ ["A.pdf"; "C.pdf"; "D.pdf"] → cache_ABCD !! k = cache_AB !! k)
  ∧ ∀ t f p, occurs word_map_AB t f p → f ∉ ["A.pdf"; "C.pdf"; "D.pdf"] →
             occurs word_map_ABCD t f p.
Proof.
  apply (grown_folder_keeps_removed_documents
           (sample_world ["A.pdf"; "C.pdf"; "D.pdf"] true)
           ["A.pdf"; "C.pdf"; "D.pdf"] word_map_AB word_map_ABCD
           cache_AB cache_ABCD).
  - apply sample_world_yields_all.
  - vm_compute. lia.
  - vm_compute. reflexivity.
Defined.

Lemma run_completes_witness :
  ∃ d', build_word_map_with_cache (sample_world ["A.pdf"; "C.pdf"; "D.pdf"] true)
          checkpoint_AB = (d', Ok true).
Proof.
  apply (run_completes (sample_world ["A.pdf"; "C.pdf"; "D.pdf"] true)
           checkpoint_AB ["A.pdf"; "C.pdf"; "D.pdf"] cache_AB).
  - reflexivity.
  - reflexivity.
  - discriminate.
  - intros pdf [->|[->|[->|[]%elem_of_nil]%elem_of_cons]%elem_of_cons]%elem_of_cons;
      vm_compute; eauto.
  - reflexivity.
  - reflexivity.
  - right. left. vm_compute. lia.
Defined.
